(** * ttyhlauncher: the versions manager and the version-descriptor parser

    A shallow embedding of [VersionsManager] (prefix discovery, per-version
    index fetching, local-version discovery, file-list assembly) and of the
    [Ttyh::Json::VersionIndex] constructor, followed by the properties
    proved about them.

    Conventions.
    - [QString] is [string]; [operator<] on [QString] is the lexicographic
      order on code units, here [String.le] on characters.
    - [QByteArray] is [list byte].
    - [QHash]/[QMap] keyed by [QString] is [gmap string _].
    - The callback chains on [QNetworkReply::finished] run one request at a
      time; they are written as sequential functions over an environment
      that answers each request, and every observable action (request,
      directory creation, file open, file write, log line, emitted signal)
      is appended to a trace. *)

From Stdlib Require Import ZArith Ascii String List.
From Stdlib.Strings Require Import Byte.
From stdpp Require Import base gmap strings list sorting fin_maps pretty.

Open Scope string_scope.
Open Scope list_scope.

(** ** Qt primitives *)

Module Qt.

Definition QString := string.
Definition QByteArray := list Byte.byte.

(** [QString::isEmpty] *)
Definition isEmpty (s : QString) : bool := bool_decide (s = "").

(** [QString::mid(0, n)] *)
Definition mid0 (n : nat) (s : QString) : QString := String.substring 0 n s.

(** [QString::split(sep)] with the default [KeepEmptyParts]: the pieces
    between separators, empty pieces included; the empty string splits
    into one empty piece. *)
Fixpoint split (sep : ascii) (s : QString) : list QString :=
  match s with
  | EmptyString => [""]
  | String c s' =>
      if Ascii.eqb c sep then "" :: split sep s'
      else match split sep s' with
           | [] => [String c ""]
           | w :: ws => String c w :: ws
           end
  end.

(** [std::greater<QString>] read as the order a sorted range satisfies:
    an earlier element is not smaller than a later one. *)
Definition greater_eq : relation QString := flip String.le.

(** [std::sort(begin, end, std::greater<QString>())].  Equal strings are
    indistinguishable, so the sorted range is unique whatever the
    algorithm; merge sort computes it. *)
Definition sort_greater (l : list QString) : list QString :=
  merge_sort greater_eq l.

(** JSON values as [QJsonValue] holds them.  Numbers are carried as
    integers: none of the code below inspects a number. *)
#[local] Unset Elimination Schemes.
Inductive QJsonValue :=
| JNull
| JBool (b : bool)
| JDouble (n : Z)
| JString (s : QString)
| JArray (a : list QJsonValue)
| JObject (o : list (QString * QJsonValue))
| JUndefined.
#[local] Set Elimination Schemes.

Definition QJsonObject := list (QString * QJsonValue).

(** [QJsonObject::contains] *)
Fixpoint contains (o : QJsonObject) (key : QString) : bool :=
  match o with
  | [] => false
  | (k, _) :: o' => if String.eqb k key then true else contains o' key
  end.

(** [QJsonObject::operator[]]: the value, or [Undefined] when absent. *)
Fixpoint value (o : QJsonObject) (key : QString) : QJsonValue :=
  match o with
  | [] => JUndefined
  | (k, v) :: o' => if String.eqb k key then v else value o' key
  end.

(** [QJsonValue::toString], [toObject], [toArray], [isString] *)
Definition toString (v : QJsonValue) : QString :=
  match v with JString s => s | _ => "" end.
Definition toObject (v : QJsonValue) : QJsonObject :=
  match v with JObject o => o | _ => [] end.
Definition toArray (v : QJsonValue) : list QJsonValue :=
  match v with JArray a => a | _ => [] end.
Definition isString (v : QJsonValue) : bool :=
  match v with JString _ => true | _ => false end.

(** [QJsonValue::operator[](key)] *)
Definition valueAt (v : QJsonValue) (key : QString) : QJsonValue :=
  value (toObject v) key.

End Qt.

Import Qt.

(** ** json/versionindex.cpp *)

Module Json.

(** Modelled from the spec: [AssetDownloadInfo] (json/assetdownloadinfo.h
    is absent); the structured assets-index object carries [id] and
    [sha1]. *)
Module AssetDownloadInfo.
Record t := mk { sha1 : QString; id : QString }.

Definition AssetDownloadInfo (o : QJsonObject) : t :=
  {| sha1 := toString (value o "sha1"); id := toString (value o "id") |}.
End AssetDownloadInfo.

(** Modelled from the spec: [LibraryInfo] (json/libraryinfo.h is absent);
    a library descriptor is kept as the JSON object it is built from and
    is read only by the platform predicates. *)
Module LibraryInfo.
Record t := LibraryInfo { json : QJsonObject }.
End LibraryInfo.

Module VersionIndex.
Record t := mk {
  id : QString;
  releaseTime : QString;
  assetsIndex : QString;
  libraries : list LibraryInfo.t;
  mainClass : QString;
  gameArguments : list QString
}.

(** The string tokens of [arguments.game], in order (lines 28-31). *)
Definition stringTokens (jArgs : list QJsonValue) : list QString :=
  omap (fun token => if isString token then Some (toString token) else None)
       jArgs.

(** [VersionIndex::VersionIndex(const QJsonObject &)].  [releaseTime]
    keeps the ISO-8601 text; the date is not decoded. *)
Definition VersionIndex (jObject : QJsonObject) : t :=
  let assetIndexKey := "assetIndex" in
  let argumentsKey := "arguments" in
  {| id := toString (value jObject "id");
     releaseTime := toString (value jObject "releaseTime");
     assetsIndex :=
       if contains jObject assetIndexKey then
         let assetsInfo :=
           AssetDownloadInfo.AssetDownloadInfo
             (toObject (value jObject assetIndexKey)) in
         AssetDownloadInfo.sha1 assetsInfo +:+ "/"
           +:+ AssetDownloadInfo.id assetsInfo
       else toString (value jObject "assets");
     libraries :=
       map (fun jLibraryInfo =>
              LibraryInfo.LibraryInfo (toObject jLibraryInfo))
           (toArray (value jObject "libraries"));
     mainClass := toString (value jObject "mainClass");
     gameArguments :=
       if contains jObject argumentsKey then
         stringTokens
           (toArray (valueAt (value jObject argumentsKey) "game"))
       else split " " (toString (value jObject "minecraftArguments")) |}.
End VersionIndex.

(** *** The two wire shapes, as the specification describes them *)






(** No space occurs in the token. *)
Fixpoint spaceFree (s : QString) : bool :=
  match s with
  | EmptyString => true
  | String c s' => negb (Ascii.eqb c " ") && spaceFree s'
  end.

End Json.

Import Json.

(** ** versionsmanager.cpp: data *)

Module Versions.

(** Modelled from the spec: [Prefix] (versions/prefix.h is absent):
    identifier, description, known version identifiers, latest version
    identifier.  [Prefix(id, about)] starts with no version. *)
Module Prefix.
Record t := mk {
  id : QString;
  about : QString;
  versions : list QString;
  latestVersionId : QString
}.

Definition Prefix (id about : QString) : t := mk id about [] "".

(** The value [QHash::operator[]] inserts for an absent key. *)
Definition empty : t := mk "" "" [] "".
End Prefix.

(** Modelled from the spec: [FullVersionId] (absent from the sources), a
    (prefix, version) pair printed as [<prefix>/<version>]. *)
Module FullVersionId.
Record t := mk { prefix : QString; id : QString }.

Definition toString (v : t) : QString := prefix v +:+ "/" +:+ id v.
End FullVersionId.

(** Modelled from the spec: an entry of the prefixes index,
    [{about: string}] (json/prefixesindex.h is absent). *)
Module PrefixInfo.
Record t := mk { about : QString }.

Definition empty : t := mk "".
End PrefixInfo.

(** Modelled from the spec: the per-prefix versions manifest, latest
    version id and full version id list (json/prefixversionsindex.h is
    absent). *)
Module PrefixVersionsIndex.
Record t := mk { latest : QString; versions : list QString }.
End PrefixVersionsIndex.

(** Modelled from the spec: a (content hash, byte size) pair. *)
Module CheckInfo.
Record t := mk { hash : QString; size : Z }.

Definition empty : t := mk "" 0.
End CheckInfo.

(** Modelled from the spec: the data descriptor (json/dataindex.h is
    absent): [main], [files] and [libs]. *)
Module DataIndex.
Record t := mk {
  main : CheckInfo.t;
  files : gmap QString CheckInfo.t;
  libs : gmap QString CheckInfo.t
}.
End DataIndex.

(** Modelled from the spec: the assets descriptor (json/assetsindex.h is
    absent): [objects]. *)
Module AssetsIndex.
Record t := mk { objects : gmap QString CheckInfo.t }.
End AssetsIndex.

(** Modelled from the spec: [FileInfo] (storage/fileinfo.h is absent):
    remote URL, local path, expected hash, expected size. *)
Module FileInfo.
Record t := FileInfo {
  url : QString;
  path : QString;
  hash : QString;
  size : Z
}.
End FileInfo.

(** What versionsmanager.cpp leaves to other translation units: the
    JSON codec, the constructors and validity checks of the absent index
    classes, and the platform predicates of utils/platform.h. *)
Class Collaborators := {
  (** [QJsonDocument::fromJson(bytes).object()] *)
  fromJson : QByteArray -> QJsonObject;
  (** [QJsonDocument(object).toJson()] *)
  toJson : QJsonObject -> QByteArray;
  PrefixesIndex : QJsonObject -> gmap QString PrefixInfo.t;
  PrefixesIndex_toJsonObject : gmap QString PrefixInfo.t -> QJsonObject;
  PrefixVersionsIndex : QJsonObject -> PrefixVersionsIndex.t;
  DataIndex : QJsonObject -> DataIndex.t;
  DataIndex_isValid : DataIndex.t -> bool;
  VersionIndex_isValid : VersionIndex.t -> bool;
  AssetsIndex : QJsonObject -> AssetsIndex.t;
  AssetsIndex_isValid : AssetsIndex.t -> bool;
  isLibraryAllowed : LibraryInfo.t -> bool;
  getLibraryPath : LibraryInfo.t -> QString
}.

(** *** Environment and observable actions *)

Inductive Reply :=
| ReplyError (errorString : QString)
| ReplyData (data : QByteArray).

(** The world outside the process while a flow runs. *)
Record Env := mkEnv {
  (** the reply to a GET of the URL *)
  get : QString -> Reply;
  (** [QDir(path).entryList(Dirs | NoDotAndDotDot)] *)
  entryList : QString -> list QString;
  (** whether [QFile(path).open(WriteOnly)] succeeds *)
  canOpenWrite : QString -> bool;
  (** whether [QFile::write] on the opened path stores its bytes *)
  writeOk : QString -> bool;
  (** [QStandardPaths::writableLocation(GenericDataLocation)] *)
  genericDataLocation : QString
}.

Inductive LogLevel := LInfo | LWarning | LError.

Inductive Signal := onFetchPrefixesResult | onFetchVersionIndexesResult.

Inductive Event :=
| EvLog (level : LogLevel) (msg : QString)
| EvRequest (url : QString)
| EvMkpath (path : QString)
| EvOpen (path : QString) (ok : bool)
| EvWrite (path : QString) (data : QByteArray)
| EvEmit (signal : Signal) (result : bool).

(** Regular files by path, and everything done so far, oldest first.  A
    file is keyed by the path as the code spells it: two spellings of one
    file (through [..], say) are two keys, so a statement that tells files
    apart by their paths speaks of spellings only. *)
Record World := mkWorld {
  files : gmap QString QByteArray;
  trace : list Event
}.

Definition emit (e : Event) (w : World) : World :=
  {| files := files w; trace := trace w ++ [e] |}.

Definition log_info (msg : QString) : World -> World := emit (EvLog LInfo msg).
Definition log_warning (msg : QString) : World -> World :=
  emit (EvLog LWarning msg).
Definition log_error (msg : QString) : World -> World :=
  emit (EvLog LError msg).

Definition mkpath (path : QString) : World -> World := emit (EvMkpath path).

(** [QFile::open(QIODevice::WriteOnly)]: on success the file exists and is
    empty (write-only implies truncation). *)
Definition openWriteOnly (env : Env) (path : QString) (w : World)
  : bool * World :=
  if canOpenWrite env path
  then (true, emit (EvOpen path true)
                   {| files := <[path := []]> (files w); trace := trace w |})
  else (false, emit (EvOpen path false) w).

(** [QFile::write(data)] on a file just opened write-only.  The callers
    drop the returned byte count; a write that fails leaves the file as
    the open left it. *)
Definition write (env : Env) (path : QString) (data : QByteArray) (w : World)
  : World :=
  emit (EvWrite path data)
       (if writeOk env path
        then {| files := <[path := data]> (files w); trace := trace w |}
        else w).

(** [file.open(ReadOnly)] then [file.readAll()] *)
Definition readAll (path : QString) (w : World) : option QByteArray :=
  files w !! path.

(** The URLs requested, the signals emitted and the warnings logged, in
    trace order. *)
Definition requests (tr : list Event) : list QString :=
  omap (fun e => match e with EvRequest u => Some u | _ => None end) tr.

Definition emitted (s : Signal) (tr : list Event) : list bool :=
  omap (fun e => match e with
                 | EvEmit s' r =>
                     match s, s' with
                     | onFetchPrefixesResult, onFetchPrefixesResult
                     | onFetchVersionIndexesResult,
                       onFetchVersionIndexesResult => Some r
                     | _, _ => None
                     end
                 | _ => None
                 end) tr.

Definition warnings (tr : list Event) : list QString :=
  omap (fun e => match e with EvLog LWarning m => Some m | _ => None end) tr.

(** The paths opened for writing or written to, in trace order. *)
Definition touched (tr : list Event) : list QString :=
  omap (fun e => match e with
                 | EvOpen path _ | EvWrite path _ => Some path
                 | _ => None
                 end) tr.

(** *** The manager *)

Record VersionsManager := mkVersionsManager {
  storeUrl : QString;
  dataPath : QString;
  versionsPath : QString;
  indexPath : QString;
  (** [index.prefixes], the in-memory copy of prefixes.json *)
  index : gmap QString PrefixInfo.t;
  prefixes : gmap QString Prefix.t;
  prefixFetchQueue : list QString;
  fetchingPrefixes : bool;
  fetchingVersionIndexes : bool
}.

Definition set_index (f : gmap QString PrefixInfo.t -> gmap QString PrefixInfo.t)
  (m : VersionsManager) : VersionsManager :=
  mkVersionsManager (storeUrl m) (dataPath m) (versionsPath m) (indexPath m)
    (f (index m)) (prefixes m) (prefixFetchQueue m) (fetchingPrefixes m)
    (fetchingVersionIndexes m).

Definition set_prefixes (f : gmap QString Prefix.t -> gmap QString Prefix.t)
  (m : VersionsManager) : VersionsManager :=
  mkVersionsManager (storeUrl m) (dataPath m) (versionsPath m) (indexPath m)
    (index m) (f (prefixes m)) (prefixFetchQueue m) (fetchingPrefixes m)
    (fetchingVersionIndexes m).

Definition set_prefixFetchQueue (f : list QString -> list QString)
  (m : VersionsManager) : VersionsManager :=
  mkVersionsManager (storeUrl m) (dataPath m) (versionsPath m) (indexPath m)
    (index m) (prefixes m) (f (prefixFetchQueue m)) (fetchingPrefixes m)
    (fetchingVersionIndexes m).

Definition set_fetchingPrefixes (b : bool) (m : VersionsManager)
  : VersionsManager :=
  mkVersionsManager (storeUrl m) (dataPath m) (versionsPath m) (indexPath m)
    (index m) (prefixes m) (prefixFetchQueue m) b (fetchingVersionIndexes m).

Definition set_fetchingVersionIndexes (b : bool) (m : VersionsManager)
  : VersionsManager :=
  mkVersionsManager (storeUrl m) (dataPath m) (versionsPath m) (indexPath m)
    (index m) (prefixes m) (prefixFetchQueue m) (fetchingPrefixes m) b.

(** *** Operations *)

Section operations.
Context `{!Collaborators}.

(** One turn of the loop of [findLocalVersions] (lines 64-80), on the
    version list being built and the world. *)
Definition scanVersionDir (prefixId prefixPath versionId : QString)
  (st : list QString * World) : list QString * World :=
  let '(versions, w) := st in
  let versionIndexPath :=
    prefixPath +:+ "/" +:+ versionId +:+ "/" +:+ versionId +:+ ".json" in
  match readAll versionIndexPath w with
  | None => (versions, w)
  | Some bytes =>
      let versionIndex := VersionIndex.VersionIndex (fromJson bytes) in
      if bool_decide (VersionIndex.id versionIndex <> versionId) then
        (versions,
         log_warning ("A version index '" +:+ versionIndexPath
                        +:+ "' contains the wrong version id '"
                        +:+ VersionIndex.id versionIndex +:+ "'") w)
      else
        (versions ++ [versionId],
         log_info ("Local version is found: '" +:+ prefixId +:+ "/"
                     +:+ versionId +:+ "'") w)
  end.

(** [VersionsManager::findLocalVersions] *)
Definition findLocalVersions (env : Env) (prefixId : QString)
  (m : VersionsManager) (w : World) : VersionsManager * World :=
  let prefix := default Prefix.empty (prefixes m !! prefixId) in
  let prefixPath := versionsPath m +:+ "/" +:+ prefixId in
  let versions := entryList env prefixPath in
  let '(found, w) :=
    foldl (fun st versionId => scanVersionDir prefixId prefixPath versionId st)
          (Prefix.versions prefix, w) versions in
  let sorted := sort_greater found in
  let latest :=
    if bool_decide (1 < List.length sorted)%nat
    then nth 1 sorted ""
    else Prefix.latestVersionId prefix in
  (set_prefixes
     <[prefixId := Prefix.mk (Prefix.id prefix) (Prefix.about prefix)
                             sorted latest]> m,
   w).

(** One turn of the loop of the constructor (lines 47-53). *)
Definition initPrefix (env : Env) (st : VersionsManager * World)
  (id : QString) : VersionsManager * World :=
  let '(m, w) := st in
  if isEmpty id then (m, w)
  else
    let about := PrefixInfo.about (default PrefixInfo.empty (index m !! id)) in
    findLocalVersions env id
      (set_prefixes <[id := Prefix.Prefix id about]> m) w.

(** [VersionsManager::VersionsManager] *)
Definition VersionsManager_new (env : Env) (dirName url : QString)
  (w : World) : VersionsManager * World :=
  let dataPath := genericDataLocation env +:+ "/" +:+ dirName in
  let versionsPath := dataPath +:+ "/" +:+ "versions" in
  let w := mkpath versionsPath w in
  let indexPath := versionsPath +:+ "/" +:+ "prefixes.json" in
  let '(index, w) :=
    match readAll indexPath w with
    | Some bytes => (PrefixesIndex (fromJson bytes), w)
    | None => (∅, log_info "Default version index have been created" w)
    end in
  let m := mkVersionsManager url dataPath versionsPath indexPath index ∅ []
                             false false in
  let '(m, w) := foldl (initPrefix env) (m, w) (map_to_list index).*1 in
  (m, log_info ("Initialized with " +:+ pretty (size index)
                  +:+ " prefix(es)") w).

(** [VersionsManager::makeGetRequest]; the timeout timer shows only as
    an error reply. *)
Definition makeGetRequest (env : Env) (url : QString) (w : World)
  : Reply * World :=
  (get env url, emit (EvRequest url) (log_info ("Requesting '" +:+ url +:+ "'...") w)).

(** [VersionsManager::setFetchPrefixesResult] *)
Definition setFetchPrefixesResult (result : bool) (m : VersionsManager)
  (w : World) : VersionsManager * World :=
  let w := if result then log_info "All prefixes are successfully fetched!" w
           else w in
  (set_fetchingPrefixes false (set_prefixFetchQueue (fun _ => []) m),
   emit (EvEmit onFetchPrefixesResult result) w).

(** Lines 155-167: the reply handler's update of one prefix. *)
Definition mergeVersions (versionsIndex : PrefixVersionsIndex.t)
  (prefix : Prefix.t) : Prefix.t :=
  let knownVersions : gset QString := list_to_set (Prefix.versions prefix) in
  let versions :=
    foldl (fun versions versionId =>
             if bool_decide (versionId ∉ knownVersions)
             then versions ++ [versionId] else versions)
          (Prefix.versions prefix)
          (PrefixVersionsIndex.versions versionsIndex) in
  Prefix.mk (Prefix.id prefix) (Prefix.about prefix)
            (sort_greater versions)
            (PrefixVersionsIndex.latest versionsIndex).

(** The reply handler of [fetchNextPrefixOrFinish] up to its tail call:
    [prefixes[prefixId]] is created when absent, then updated. *)
Definition onPrefixVersionsReply (prefixId : QString) (data : QByteArray)
  (m : VersionsManager) : VersionsManager :=
  let versionsIndex := PrefixVersionsIndex (fromJson data) in
  let prefix := default Prefix.empty (prefixes m !! prefixId) in
  set_prefixes <[prefixId := mergeVersions versionsIndex prefix]> m.

(** [VersionsManager::fetchNextPrefixOrFinish].  [queue] is
    [prefixFetchQueue], passed alongside the manager so that the
    recursion is on it. *)
Fixpoint fetchNextPrefixOrFinish (env : Env) (queue : list QString)
  (m : VersionsManager) (w : World) : VersionsManager * World :=
  match queue with
  | [] => setFetchPrefixesResult true m w
  | prefixId :: rest =>
      let m := set_prefixFetchQueue (fun _ => rest) m in
      let '(reply, w) :=
        makeGetRequest env
          (storeUrl m +:+ "/" +:+ prefixId +:+ "/versions/versions.json") w in
      match reply with
      | ReplyError errorString =>
          setFetchPrefixesResult false m
            (log_error ("Failed to get the versions index for the prefix '"
                          +:+ prefixId +:+ "': " +:+ errorString) w)
      | ReplyData data =>
          fetchNextPrefixOrFinish env rest
            (onPrefixVersionsReply prefixId data m) w
      end
  end.

(** One turn of the loop of lines 111-117. *)
Definition mergeRemotePrefix (remoteIndex : gmap QString PrefixInfo.t)
  (m : VersionsManager) (id : QString) : VersionsManager :=
  let remote := default PrefixInfo.empty (remoteIndex !! id) in
  let m := set_index <[id := remote]> m in
  let m := set_prefixFetchQueue (fun q => q ++ [id]) m in
  match prefixes m !! id with
  | Some _ => m
  | None =>
      set_prefixes <[id := Prefix.Prefix id (PrefixInfo.about remote)]> m
  end.

(** Lines 109-117: merging a fetched prefixes index. *)
Definition mergeRemoteIndex (remoteIndex : gmap QString PrefixInfo.t)
  (m : VersionsManager) : VersionsManager :=
  foldl (mergeRemotePrefix remoteIndex) m (map_to_list remoteIndex).*1.

(** Lines 119-126: rewriting prefixes.json. *)
Definition saveIndex (env : Env) (m : VersionsManager) (w : World)
  : bool * World :=
  let '(opened, w) := openWriteOnly env (indexPath m) w in
  if opened
  then (true, write env (indexPath m)
                    (toJson (PrefixesIndex_toJsonObject (index m))) w)
  else (false, w).

(** [VersionsManager::fetchPrefixes] with its reply handler. *)
Definition fetchPrefixes (env : Env) (m : VersionsManager) (w : World)
  : VersionsManager * World :=
  if fetchingPrefixes m then
    (m, log_warning "Failed to start a prefixes fetching! Already in progress!" w)
  else
    let w := log_info "Fetching actual prefixes..." w in
    let m := set_fetchingPrefixes true m in
    let '(reply, w) :=
      makeGetRequest env (storeUrl m +:+ "/prefixes.json") w in
    match reply with
    | ReplyError errorString =>
        setFetchPrefixesResult false m
          (log_error ("Failed to get the prefixes index: " +:+ errorString) w)
    | ReplyData data =>
        let remoteIndex := PrefixesIndex (fromJson data) in
        let m := mergeRemoteIndex remoteIndex m in
        let '(saved, w) := saveIndex env m w in
        if saved then fetchNextPrefixOrFinish env (prefixFetchQueue m) m w
        else
          setFetchPrefixesResult false m
            (log_error "Failed to save the prefixes index file!" w)
    end.

(** [VersionsManager::setFetchVersionIndexesResult] *)
Definition setFetchVersionIndexesResult (result : bool)
  (m : VersionsManager) (w : World) : VersionsManager * World :=
  let w := if result then log_info "All indexes are successfully fetched!" w
           else w in
  (set_fetchingVersionIndexes false m,
   emit (EvEmit onFetchVersionIndexesResult result) w).

(** The three remote locations and the three local ones. *)
Definition versionIndexLocation (root : QString) (version : FullVersionId.t)
  : QString :=
  root +:+ "/" +:+ FullVersionId.prefix version +:+ "/"
    +:+ FullVersionId.id version +:+ "/" +:+ FullVersionId.id version
    +:+ ".json".

Definition assetsIndexLocation (root assets : QString) : QString :=
  root +:+ "/assets/indexes/" +:+ assets +:+ ".json".

Definition dataIndexLocation (root : QString) (version : FullVersionId.t)
  : QString :=
  root +:+ "/" +:+ FullVersionId.prefix version +:+ "/"
    +:+ FullVersionId.id version +:+ "/data.json".

Definition versionDir (m : VersionsManager) (version : FullVersionId.t)
  : QString :=
  versionsPath m +:+ "/" +:+ FullVersionId.prefix version +:+ "/"
    +:+ FullVersionId.id version.

(** [VersionsManager::fetchVersionDataIndex] with its reply handler. *)
Definition fetchVersionDataIndex (env : Env) (version : FullVersionId.t)
  (m : VersionsManager) (w : World) : VersionsManager * World :=
  let '(reply, w) :=
    makeGetRequest env (dataIndexLocation (storeUrl m) version) w in
  match reply with
  | ReplyError errorString =>
      setFetchVersionIndexesResult false m
        (log_error ("Failed to get the data index '"
                      +:+ FullVersionId.toString version +:+ "': "
                      +:+ errorString) w)
  | ReplyData data =>
      let w := mkpath (versionDir m version) w in
      let path := dataIndexLocation (versionsPath m) version in
      let '(opened, w) := openWriteOnly env path w in
      if negb opened then
        setFetchVersionIndexesResult false m
          (log_error ("Failed to save the data index '"
                        +:+ FullVersionId.toString version +:+ "'") w)
      else
        setFetchVersionIndexesResult true m (write env path data w)
  end.

(** [VersionsManager::fetchVersionAssetsIndex] with its reply handler. *)
Definition fetchVersionAssetsIndex (env : Env) (version : FullVersionId.t)
  (assets : QString) (m : VersionsManager) (w : World)
  : VersionsManager * World :=
  if isEmpty assets then
    setFetchVersionIndexesResult false m
      (log_error ("Failed to resolve assets index path for the version '"
                    +:+ FullVersionId.toString version +:+ "'") w)
  else
    let '(reply, w) :=
      makeGetRequest env (assetsIndexLocation (storeUrl m) assets) w in
    match reply with
    | ReplyError errorString =>
        setFetchVersionIndexesResult false m
          (log_error ("Failed to get the assets index '" +:+ assets
                        +:+ "' (" +:+ FullVersionId.toString version
                        +:+ "): " +:+ errorString) w)
    | ReplyData data =>
        let w := mkpath (dataPath m +:+ "/assets/indexes") w in
        let path := assetsIndexLocation (dataPath m) assets in
        let '(opened, w) := openWriteOnly env path w in
        if negb opened then
          setFetchVersionIndexesResult false m
            (log_error ("Failed to save the assets index '" +:+ assets
                          +:+ "' (" +:+ FullVersionId.toString version
                          +:+ ")") w)
        else
          fetchVersionDataIndex env version m (write env path data w)
    end.

(** [VersionsManager::fetchVersionMainIndex] with its reply handler. *)
Definition fetchVersionMainIndex (env : Env) (version : FullVersionId.t)
  (m : VersionsManager) (w : World) : VersionsManager * World :=
  let '(reply, w) :=
    makeGetRequest env (versionIndexLocation (storeUrl m) version) w in
  match reply with
  | ReplyError errorString =>
      setFetchVersionIndexesResult false m
        (log_error ("Failed to get the version index '"
                      +:+ FullVersionId.toString version +:+ "': "
                      +:+ errorString) w)
  | ReplyData data =>
      let w := mkpath (versionDir m version) w in
      let path := versionIndexLocation (versionsPath m) version in
      let '(opened, w) := openWriteOnly env path w in
      if negb opened then
        setFetchVersionIndexesResult false m
          (log_error ("Failed to save the version index '"
                        +:+ FullVersionId.toString version +:+ "'") w)
      else
        let w := write env path data w in
        let versionIndex := VersionIndex.VersionIndex (fromJson data) in
        fetchVersionAssetsIndex env version
          (VersionIndex.assetsIndex versionIndex) m w
  end.

(** [VersionsManager::fetchVersionIndexes] *)
Definition fetchVersionIndexes (env : Env) (version : FullVersionId.t)
  (m : VersionsManager) (w : World) : VersionsManager * World :=
  if fetchingVersionIndexes m then
    (m, log_warning
          "Failed to start a version indexes fetching! Already in progress!" w)
  else
    let w := log_info ("Fetching actual indexes for the '"
                         +:+ FullVersionId.toString version +:+ "'...") w in
    fetchVersionMainIndex env version (set_fetchingVersionIndexes true m) w.

(** [VersionsManager::loadIndex<T>]: the result of [open] is not looked
    at; an unreadable file reads as no bytes. *)
Definition loadIndex {T} (ctor : QJsonObject -> T) (path : QString)
  (w : World) : T :=
  ctor (fromJson (default [] (readAll path w))).

(** The entries [fillVersionFiles] appends, group by group. *)
Definition jarFile (m : VersionsManager) (version : FullVersionId.t)
  (dataIndex : DataIndex.t) : FileInfo.t :=
  let jarLocation root :=
    root +:+ "/" +:+ FullVersionId.prefix version +:+ "/"
      +:+ FullVersionId.id version +:+ "/" +:+ FullVersionId.id version
      +:+ ".jar" in
  FileInfo.FileInfo (jarLocation (storeUrl m)) (jarLocation (versionsPath m))
    (CheckInfo.hash (DataIndex.main dataIndex))
    (CheckInfo.size (DataIndex.main dataIndex)).

Definition auxFile (m : VersionsManager) (version : FullVersionId.t)
  (dataIndex : DataIndex.t) (fileName : QString) : FileInfo.t :=
  let fileLocation root :=
    root +:+ "/" +:+ FullVersionId.toString version +:+ "/files/"
      +:+ fileName in
  let checkInfo :=
    default CheckInfo.empty (DataIndex.files dataIndex !! fileName) in
  FileInfo.FileInfo (fileLocation (storeUrl m)) (fileLocation (versionsPath m))
    (CheckInfo.hash checkInfo) (CheckInfo.size checkInfo).

Definition libFile (m : VersionsManager) (dataIndex : DataIndex.t)
  (libPath : QString) : FileInfo.t :=
  let libLocation root := root +:+ "/libraries/" +:+ libPath in
  let checkInfo :=
    default CheckInfo.empty (DataIndex.libs dataIndex !! libPath) in
  FileInfo.FileInfo (libLocation (storeUrl m)) (libLocation (dataPath m))
    (CheckInfo.hash checkInfo) (CheckInfo.size checkInfo).

Definition assetFile (m : VersionsManager) (asset : CheckInfo.t)
  : FileInfo.t :=
  let name := mid0 2 (CheckInfo.hash asset) +:+ "/" +:+ CheckInfo.hash asset in
  let assetLocation root := root +:+ "/assets/objects/" +:+ name in
  FileInfo.FileInfo (assetLocation (storeUrl m)) (assetLocation (dataPath m))
    (CheckInfo.hash asset) (CheckInfo.size asset).

(** One turn of the library loop (lines 352-366). *)
Definition addLibrary (m : VersionsManager) (dataIndex : DataIndex.t)
  (st : list FileInfo.t * World) (libInfo : LibraryInfo.t)
  : list FileInfo.t * World :=
  let '(files, w) := st in
  if negb (isLibraryAllowed libInfo) then (files, w)
  else
    let libPath := getLibraryPath libInfo in
    match DataIndex.libs dataIndex !! libPath with
    | None =>
        (files,
         log_warning ("Library '" +:+ libPath
                        +:+ "' is missing in the data index") w)
    | Some _ => (files ++ [libFile m dataIndex libPath], w)
    end.

(** [VersionsManager::fillVersionFiles]: the returned flag, the list
    behind the [files] reference, and the world. *)
Definition fillVersionFiles (m : VersionsManager) (version : FullVersionId.t)
  (files : list FileInfo.t) (w : World) : bool * list FileInfo.t * World :=
  let w := log_info ("Collecting files for the version '"
                       +:+ FullVersionId.toString version +:+ "'...") w in
  let dIndexPath :=
    versionsPath m +:+ "/" +:+ FullVersionId.toString version
      +:+ "/data.json" in
  let dataIndex := loadIndex DataIndex dIndexPath w in
  if negb (DataIndex_isValid dataIndex) then
    (false, files, log_error "Failed to load data index!" w)
  else
    let files := files ++ [jarFile m version dataIndex] in
    let files :=
      foldl (fun files fileName =>
               files ++ [auxFile m version dataIndex fileName])
            files (map_to_list (DataIndex.files dataIndex)).*1 in
    let vIndexPath := versionIndexLocation (versionsPath m) version in
    let versionIndex := loadIndex VersionIndex.VersionIndex vIndexPath w in
    if negb (VersionIndex_isValid versionIndex) then
      (false, files, log_error "Failed to load version index!" w)
    else
      let '(files, w) :=
        foldl (addLibrary m dataIndex) (files, w)
              (VersionIndex.libraries versionIndex) in
      let aIndexPath :=
        assetsIndexLocation (dataPath m)
                            (VersionIndex.assetsIndex versionIndex) in
      let assetsIndex := loadIndex AssetsIndex aIndexPath w in
      if negb (AssetsIndex_isValid assetsIndex) then
        (false, files, log_error "Failed to load version index!" w)
      else
        let files :=
          foldl (fun files asset => files ++ [assetFile m asset])
                files (map_to_list (AssetsIndex.objects assetsIndex)).*2 in
        (true, files,
         log_info ("Need to check "
                     +:+ pretty (List.length files) +:+ " files") w).

(** *** Vocabulary of the statements *)

(** A version directory is accepted by the scan when its descriptor can
    be read and carries the directory's name as [id]. *)
Definition accepted (prefixPath : QString) (w : World) (versionId : QString)
  : bool :=
  match readAll (prefixPath +:+ "/" +:+ versionId +:+ "/" +:+ versionId
                   +:+ ".json") w with
  | Some bytes =>
      bool_decide
        (VersionIndex.id (VersionIndex.VersionIndex (fromJson bytes))
         = versionId)
  | None => false
  end.

(** The warning the scan logs for a version directory whose descriptor
    carries another [id], if it logs one. *)
Definition wrongIdWarning (prefixPath : QString) (w : World)
  (versionId : QString) : option QString :=
  let versionIndexPath :=
    prefixPath +:+ "/" +:+ versionId +:+ "/" +:+ versionId +:+ ".json" in
  match readAll versionIndexPath w with
  | Some bytes =>
      let id := VersionIndex.id (VersionIndex.VersionIndex (fromJson bytes)) in
      if bool_decide (id <> versionId)
      then Some ("A version index '" +:+ versionIndexPath
                   +:+ "' contains the wrong version id '" +:+ id +:+ "'")
      else None
  | None => None
  end.

(** The accepted version directories of a prefix, in listing order. *)
Definition localVersions (env : Env) (m : VersionsManager) (w : World)
  (prefixId : QString) : list QString :=
  let prefixPath := versionsPath m +:+ "/" +:+ prefixId in
  List.filter (accepted prefixPath w) (entryList env prefixPath).

(** The version list of a prefix as [prefixes[prefixId]] reads it. *)
Definition versionsOf (m : VersionsManager) (prefixId : QString)
  : list QString :=
  Prefix.versions (default Prefix.empty (prefixes m !! prefixId)).

Definition latestOf (m : VersionsManager) (prefixId : QString) : QString :=
  Prefix.latestVersionId (default Prefix.empty (prefixes m !! prefixId)).

(** A stage gets through when its request is answered with data and the
    local file can be opened for writing. *)
Definition stageOk (env : Env) (url path : QString) : bool :=
  match get env url with
  | ReplyData _ => canOpenWrite env path
  | ReplyError _ => false
  end.

Definition replyData (env : Env) (url : QString) : QByteArray :=
  match get env url with
  | ReplyData data => data
  | ReplyError _ => []
  end.

(** The assets-index reference parsed from the remote version
    descriptor. *)
Definition remoteAssets (env : Env) (m : VersionsManager)
  (version : FullVersionId.t) : QString :=
  VersionIndex.assetsIndex
    (VersionIndex.VersionIndex
       (fromJson (replyData env (versionIndexLocation (storeUrl m) version)))).

(** The worlds [saveIndex] goes through, one per file operation: before
    the open, after the open, after the write. *)
Definition saveIndexPoints (env : Env) (m : VersionsManager) (w : World)
  : list World :=
  let '(opened, w1) := openWriteOnly env (indexPath m) w in
  if opened
  then [w; w1;
        write env (indexPath m)
              (toJson (PrefixesIndex_toJsonObject (index m))) w1]
  else [w; w1].

(** The three descriptors [fillVersionFiles] loads. *)
Definition localDataIndex (m : VersionsManager) (version : FullVersionId.t)
  (w : World) : DataIndex.t :=
  loadIndex DataIndex
    (versionsPath m +:+ "/" +:+ FullVersionId.toString version
       +:+ "/data.json") w.

Definition localVersionIndex (m : VersionsManager)
  (version : FullVersionId.t) (w : World) : VersionIndex.t :=
  loadIndex VersionIndex.VersionIndex
    (versionIndexLocation (versionsPath m) version) w.

Definition localAssetsIndex (m : VersionsManager)
  (version : FullVersionId.t) (w : World) : AssetsIndex.t :=
  loadIndex AssetsIndex
    (assetsIndexLocation (dataPath m)
       (VersionIndex.assetsIndex (localVersionIndex m version w))) w.

(** The four groups of the assembled list. *)
Definition auxFiles (m : VersionsManager) (version : FullVersionId.t)
  (dataIndex : DataIndex.t) : list FileInfo.t :=
  map (fun entry => auxFile m version dataIndex entry.1)
      (map_to_list (DataIndex.files dataIndex)).

Definition libraryListed (dataIndex : DataIndex.t) (libInfo : LibraryInfo.t)
  : bool :=
  isLibraryAllowed libInfo
  && bool_decide (is_Some (DataIndex.libs dataIndex !! getLibraryPath libInfo)).

Definition libFiles (m : VersionsManager) (dataIndex : DataIndex.t)
  (versionIndex : VersionIndex.t) : list FileInfo.t :=
  map (fun libInfo => libFile m dataIndex (getLibraryPath libInfo))
      (List.filter (libraryListed dataIndex)
                   (VersionIndex.libraries versionIndex)).

Definition assetFiles (m : VersionsManager) (assetsIndex : AssetsIndex.t)
  : list FileInfo.t :=
  map (fun entry => assetFile m entry.2)
      (map_to_list (AssetsIndex.objects assetsIndex)).

(** [VersionsManager::getPrefixes] *)
Definition getPrefixes (m : VersionsManager) : gmap QString Prefix.t :=
  prefixes m.

(** *** Vocabulary of the further statements *)

(** The location of a prefix's versions manifest. *)
Definition versionsLocation (root prefixId : QString) : QString :=
  root +:+ "/" +:+ prefixId +:+ "/versions/versions.json".

(** Whether a request is answered with data. *)
Definition answered (env : Env) (url : QString) : bool :=
  match get env url with
  | ReplyData _ => true
  | ReplyError _ => false
  end.

(** The queued prefixes up to and including the first one whose versions
    manifest cannot be fetched. *)
Fixpoint attempted (env : Env) (root : QString) (queue : list QString)
  : list QString :=
  match queue with
  | [] => []
  | prefixId :: rest =>
      prefixId
      :: (if answered env (versionsLocation root prefixId)
          then attempted env root rest else [])
  end.

(** The event is a log line. *)
Definition isLog (e : Event) : bool :=
  match e with
  | EvLog _ _ => true
  | _ => false
  end.

(** The files after a stage that fetched [data] tried to save it under
    [path]. *)
Definition saved (env : Env) (path : QString) (data : QByteArray)
  (fs : gmap QString QByteArray) : gmap QString QByteArray :=
  if canOpenWrite env path
  then <[path := if writeOk env path then data else []]> fs
  else fs.

(** The warning assembly logs for a library that is allowed on the
    platform but not listed in the data index, if it logs one. *)
Definition missingLibraryWarning (dataIndex : DataIndex.t)
  (libInfo : LibraryInfo.t) : option QString :=
  if isLibraryAllowed libInfo
  then match DataIndex.libs dataIndex !! getLibraryPath libInfo with
       | Some _ => None
       | None => Some ("Library '" +:+ getLibraryPath libInfo
                         +:+ "' is missing in the data index")
       end
  else None.

(** The [Prefix] the constructor leaves for an identifier of the index:
    created with the index's description, then scanned. *)
Definition scannedPrefix (env : Env) (m : VersionsManager) (w : World)
  (id about : QString) : Prefix.t :=
  let sorted := sort_greater (localVersions env m w id) in
  Prefix.mk id about sorted
            (if bool_decide (1 < List.length sorted)%nat
             then nth 1 sorted "" else "").

(** The index the constructor reads from prefixes.json, empty when the
    file cannot be read. *)
Definition storedIndex (indexPath : QString) (w : World)
  : gmap QString PrefixInfo.t :=
  match readAll indexPath w with
  | Some bytes => PrefixesIndex (fromJson bytes)
  | None => ∅
  end.

End operations.

End Versions.

Import Versions.

(** ** A concrete set of collaborators and a small store

    Used to run the definitions on explicit inputs. *)

Module Fixtures.

Definition bytes (s : string) : QByteArray := String.list_byte_of_string s.

Definition checkInfo (v : QJsonValue) : CheckInfo.t :=
  CheckInfo.mk (toString (valueAt v "hash"))
               (match valueAt v "size" with JDouble n => n | _ => 0%Z end).

Definition checkInfos (v : QJsonValue) : gmap QString CheckInfo.t :=
  list_to_map (map (fun entry => (entry.1, checkInfo entry.2)) (toObject v)).

(** The remote and cached documents, by their bytes. *)
Definition documents : list (string * QJsonObject) :=
  [ ("prefixes-remote",
     [("release", JObject [("about", JString "Stable builds")])]);
    ("versions-release",
     [("latest", JString "1.2");
      ("versions", JArray [JString "1.2"; JString "1.1"])]);
    ("versions-repeated",
     [("latest", JString "1.0");
      ("versions", JArray [JString "1.0"; JString "1.0"])]);
    ("version-1.0",
     [("id", JString "1.0"); ("assets", JString "legacy");
      ("libraries", JArray [JObject [("name", JString "org/lib.jar")]])]);
    ("version-1.1", [("id", JString "1.1"); ("assets", JString "legacy")]);
    ("version-1.2", [("id", JString "1.2"); ("assets", JString "legacy")]);
    ("version-no-assets", [("id", JString "1.0")]);
    ("data-1.0",
     [("main", JObject [("hash", JString "aa11"); ("size", JDouble 10)]);
      ("files",
       JObject [("servers.dat",
                 JObject [("hash", JString "bb22"); ("size", JDouble 20)])]);
      ("libs",
       JObject [("org/lib.jar",
                 JObject [("hash", JString "cc33"); ("size", JDouble 30)])])]);
    ("assets-legacy",
     [("objects",
       JObject [("icon.png",
                 JObject [("hash", JString "abcdef"); ("size", JDouble 40)])])])
  ].

Definition decode (b : QByteArray) : QJsonObject :=
  let name := String.string_of_list_byte b in
  match List.find (fun d => String.eqb d.1 name) documents with
  | Some d => d.2
  | None => []
  end.

Definition encode (o : QJsonObject) : QByteArray :=
  bytes (String.concat "," (map fst o)).

#[export] Instance collaborators : Collaborators := {|
  fromJson := decode;
  toJson := encode;
  PrefixesIndex o :=
    list_to_map
      (map (fun entry =>
              (entry.1, PrefixInfo.mk (toString (valueAt entry.2 "about")))) o);
  PrefixesIndex_toJsonObject idx :=
    map (fun entry =>
           (entry.1, JObject [("about", JString (PrefixInfo.about entry.2))]))
        (map_to_list idx);
  PrefixVersionsIndex o :=
    PrefixVersionsIndex.mk
      (toString (value o "latest"))
      (VersionIndex.stringTokens (toArray (value o "versions")));
  DataIndex o :=
    DataIndex.mk (checkInfo (value o "main")) (checkInfos (value o "files"))
                 (checkInfos (value o "libs"));
  DataIndex_isValid d := negb (isEmpty (CheckInfo.hash (DataIndex.main d)));
  VersionIndex_isValid v := negb (isEmpty (VersionIndex.id v));
  AssetsIndex o := AssetsIndex.mk (checkInfos (value o "objects"));
  AssetsIndex_isValid a := negb (bool_decide (AssetsIndex.objects a = ∅));
  isLibraryAllowed _ := true;
  getLibraryPath l := toString (value (LibraryInfo.json l) "name")
|}.

(** The origin: every document of the store, errors elsewhere. *)
Definition origin (versionDoc : string) (url : QString) : Reply :=
  if String.eqb url "http://store/prefixes.json"
  then ReplyData (bytes "prefixes-remote")
  else if String.eqb url "http://store/release/versions/versions.json"
  then ReplyData (bytes "versions-release")
  else if String.eqb url "http://store/release/1.0/1.0.json"
  then ReplyData (bytes versionDoc)
  else if String.eqb url "http://store/assets/indexes/legacy.json"
  then ReplyData (bytes "assets-legacy")
  else if String.eqb url "http://store/release/1.0/data.json"
  then ReplyData (bytes "data-1.0")
  else ReplyError "Not found".

Definition listing (path : QString) : list QString :=
  if String.eqb path "/data/versions/release" then ["1.0"; "1.1"] else [].

(** Every file opens and every write lands. *)
Definition env : Env :=
  mkEnv (origin "version-1.0") listing (fun _ => true) (fun _ => true) "/home".

(** The same, with a version descriptor that names no assets index. *)
Definition envNoAssets : Env :=
  mkEnv (origin "version-no-assets") listing (fun _ => true) (fun _ => true)
        "/home".

(** The same as [env], but no write stores its bytes (a full disk). *)
Definition envDiskFull : Env :=
  mkEnv (origin "version-1.0") listing (fun _ => true) (fun _ => false) "/home".

(** The same as [env], with the version directories listed the other way
    round. *)
Definition envReversed : Env :=
  mkEnv (origin "version-1.0")
        (fun path => if String.eqb path "/data/versions/release"
                     then ["1.1"; "1.0"] else [])
        (fun _ => true) (fun _ => true) "/home".

(** A cache where 1.0 is consistent and the directory 1.1 holds the
    descriptor of 1.2. *)
Definition world : World :=
  mkWorld
    (list_to_map
       [ ("/data/versions/prefixes.json", bytes "old-index");
         ("/data/versions/release/1.0/1.0.json", bytes "version-1.0");
         ("/data/versions/release/1.1/1.1.json", bytes "version-1.2");
         ("/data/versions/release/1.0/data.json", bytes "data-1.0");
         ("/data/assets/indexes/legacy.json", bytes "assets-legacy") ])
    [].

Definition manager : VersionsManager :=
  mkVersionsManager "http://store" "/data" "/data/versions"
    "/data/versions/prefixes.json"
    {[ "release" := PrefixInfo.mk "Local builds" ]}
    {[ "release" := Prefix.Prefix "release" "Local builds" ]}
    [] false false.

Definition release_1_0 : FullVersionId.t := FullVersionId.mk "release" "1.0".

End Fixtures.

(** The same collaborators with one more document: a data descriptor
    that lists no library. *)

Module MoreFixtures.

Definition decode (b : QByteArray) : QJsonObject :=
  if String.eqb (String.string_of_list_byte b) "data-no-libs"
  then [("main", JObject [("hash", JString "aa11"); ("size", JDouble 10)])]
  else Fixtures.decode b.

#[export] Instance collaborators : Collaborators := {|
  fromJson := decode;
  toJson := Fixtures.encode;
  PrefixesIndex := @PrefixesIndex Fixtures.collaborators;
  PrefixesIndex_toJsonObject := @PrefixesIndex_toJsonObject Fixtures.collaborators;
  PrefixVersionsIndex := @PrefixVersionsIndex Fixtures.collaborators;
  DataIndex := @DataIndex Fixtures.collaborators;
  DataIndex_isValid := @DataIndex_isValid Fixtures.collaborators;
  VersionIndex_isValid := @VersionIndex_isValid Fixtures.collaborators;
  AssetsIndex := @AssetsIndex Fixtures.collaborators;
  AssetsIndex_isValid := @AssetsIndex_isValid Fixtures.collaborators;
  isLibraryAllowed := @isLibraryAllowed Fixtures.collaborators;
  getLibraryPath := @getLibraryPath Fixtures.collaborators
|}.

(** The cache of [Fixtures.world] with that descriptor for version 1.0. *)
Definition world : World :=
  mkWorld (<["/data/versions/release/1.0/data.json" :=
               Fixtures.bytes "data-no-libs"]> (files Fixtures.world)) [].

End MoreFixtures.

(** * Properties *)

(** ** The order of [std::sort] with [std::greater<QString>] *)

#[export] Instance greater_eq_po : PartialOrder greater_eq.
Proof.
  unfold greater_eq. split; [split|].
  - intros s. simpl. reflexivity.
  - intros s1 s2 s3 H12 H23. simpl in *. by etrans.
  - intros s1 s2 H12 H21. simpl in *. by apply (anti_symm String.le).
Qed.

#[export] Instance greater_eq_total : Total greater_eq.
Proof. intros s1 s2. unfold greater_eq; simpl. apply (total String.le). Qed.

Lemma sort_greater_Permutation (l : list QString) : sort_greater l ≡ₚ l.
Proof. apply merge_sort_Permutation. Qed.

Lemma sort_greater_Sorted (l : list QString) :
  Sorted greater_eq (sort_greater l).
Proof. apply (Sorted_merge_sort greater_eq). Qed.

Lemma sort_greater_StronglySorted (l : list QString) :
  StronglySorted greater_eq (sort_greater l).
Proof. apply (StronglySorted_merge_sort greater_eq). Qed.

(** Whatever algorithm [std::sort] runs, its result is this list. *)
Lemma sort_greater_unique (l sorted : list QString) :
  Sorted greater_eq sorted -> sorted ≡ₚ l -> sorted = sort_greater l.
Proof.
  intros Hsorted Hperm.
  apply (Sorted_unique greater_eq); [done | apply sort_greater_Sorted |].
  by rewrite Hperm, sort_greater_Permutation.
Qed.

Lemma sort_greater_elem_of (l : list QString) (v : QString) :
  v ∈ sort_greater l <-> v ∈ l.
Proof. by rewrite sort_greater_Permutation. Qed.

Lemma sort_greater_length (l : list QString) :
  List.length (sort_greater l) = List.length l.
Proof. by rewrite sort_greater_Permutation. Qed.

Lemma sort_greater_NoDup (l : list QString) :
  NoDup (sort_greater l) <-> NoDup l.
Proof. by rewrite sort_greater_Permutation. Qed.

Lemma sort_greater_idemp (l : list QString) :
  sort_greater (sort_greater l) = sort_greater l.
Proof.
  symmetry. apply sort_greater_unique; [apply sort_greater_Sorted | done].
Qed.

(** ** Traces *)

Lemma requests_app (tr1 tr2 : list Event) :
  requests (tr1 ++ tr2) = requests tr1 ++ requests tr2.
Proof. apply omap_app. Qed.

Lemma emitted_app (s : Signal) (tr1 tr2 : list Event) :
  emitted s (tr1 ++ tr2) = emitted s tr1 ++ emitted s tr2.
Proof. apply omap_app. Qed.

Lemma requests_cons (e : Event) (tr : list Event) :
  requests (e :: tr)
  = match e with EvRequest u => u :: requests tr | _ => requests tr end.
Proof. by destruct e. Qed.

Lemma emitted_cons (s : Signal) (e : Event) (tr : list Event) :
  emitted s (e :: tr)
  = match e with
    | EvEmit s' r =>
        match s, s' with
        | onFetchPrefixesResult, onFetchPrefixesResult
        | onFetchVersionIndexesResult, onFetchVersionIndexesResult =>
            r :: emitted s tr
        | _, _ => emitted s tr
        end
    | _ => emitted s tr
    end.
Proof. destruct e as [| | | | |s' r]; try done. by destruct s, s'. Qed.

Lemma warnings_app (tr1 tr2 : list Event) :
  warnings (tr1 ++ tr2) = warnings tr1 ++ warnings tr2.
Proof. apply omap_app. Qed.

(** ** Prefix discovery: merging the remote version list *)

Lemma foldl_append_if {A} (keep : A -> bool) (l acc : list A) :
  foldl (fun acc x => if keep x then acc ++ [x] else acc) acc l
  = acc ++ List.filter keep l.
Proof.
  revert acc. induction l as [|x l IH]; intros acc; simpl.
  - by rewrite app_nil_r.
  - rewrite IH. destruct (keep x); [|done]. by rewrite <- app_assoc.
Qed.

Lemma elem_of_filter_bool {A} (keep : A -> bool) (l : list A) (x : A) :
  x ∈ List.filter keep l <-> x ∈ l /\ keep x = true.
Proof. rewrite !list_elem_of_In. apply filter_In. Qed.

Lemma NoDup_filter_bool {A} (keep : A -> bool) (l : list A) :
  NoDup l -> NoDup (List.filter keep l).
Proof.
  rewrite !NoDup_ListNoDup. apply List.NoDup_filter.
Qed.

(** The version list after the merge: the local list followed by the
    remote identifiers not known locally, sorted. *)
Lemma mergeVersions_versions (versionsIndex : PrefixVersionsIndex.t)
  (prefix : Prefix.t) :
  Prefix.versions (mergeVersions versionsIndex prefix)
  = sort_greater
      (Prefix.versions prefix
         ++ List.filter (fun v => bool_decide (v ∉ Prefix.versions prefix))
                        (PrefixVersionsIndex.versions versionsIndex)).
Proof.
  unfold mergeVersions; simpl. f_equal.
  rewrite (foldl_append_if
             (fun v => bool_decide
                         (v ∉ (list_to_set (Prefix.versions prefix) : gset QString)))).
  f_equal. apply filter_ext. intros v.
  apply bool_decide_ext. by rewrite elem_of_list_to_set.
Qed.

Lemma mergeVersions_elem_of (versionsIndex : PrefixVersionsIndex.t)
  (prefix : Prefix.t) (v : QString) :
  v ∈ Prefix.versions (mergeVersions versionsIndex prefix)
  <-> v ∈ Prefix.versions prefix
      \/ v ∈ PrefixVersionsIndex.versions versionsIndex.
Proof.
  rewrite mergeVersions_versions, sort_greater_elem_of, elem_of_app,
    elem_of_filter_bool, bool_decide_eq_true.
  destruct (decide (v ∈ Prefix.versions prefix)) as [Hin|Hout]; [tauto|].
  split; [intros [?|[? _]]; auto | intros [?|?]; auto].
Qed.

Lemma mergeVersions_Sorted (versionsIndex : PrefixVersionsIndex.t)
  (prefix : Prefix.t) :
  Sorted greater_eq (Prefix.versions (mergeVersions versionsIndex prefix)).
Proof. rewrite mergeVersions_versions. apply sort_greater_Sorted. Qed.

Lemma mergeVersions_length_local (versionsIndex : PrefixVersionsIndex.t)
  (prefix : Prefix.t) :
  (List.length (Prefix.versions prefix)
   <= List.length (Prefix.versions (mergeVersions versionsIndex prefix)))%nat.
Proof.
  rewrite mergeVersions_versions, sort_greater_length, length_app. lia.
Qed.

Lemma mergeVersions_NoDup (versionsIndex : PrefixVersionsIndex.t)
  (prefix : Prefix.t) :
  NoDup (Prefix.versions prefix) ->
  NoDup (PrefixVersionsIndex.versions versionsIndex) ->
  NoDup (Prefix.versions (mergeVersions versionsIndex prefix)).
Proof.
  intros Hlocal Hremote.
  rewrite mergeVersions_versions, sort_greater_NoDup.
  apply NoDup_app. split; [done|]. split.
  - intros v Hv [_ Hnew%bool_decide_eq_true]%elem_of_filter_bool. done.
  - by apply NoDup_filter_bool.
Qed.

Lemma mergeVersions_length_remote (versionsIndex : PrefixVersionsIndex.t)
  (prefix : Prefix.t) :
  NoDup (PrefixVersionsIndex.versions versionsIndex) ->
  (List.length (PrefixVersionsIndex.versions versionsIndex)
   <= List.length (Prefix.versions (mergeVersions versionsIndex prefix)))%nat.
Proof.
  intros Hremote.
  apply submseteq_length, NoDup_submseteq; [done|].
  intros v Hv. apply mergeVersions_elem_of. by right.
Qed.

(** The reply handler stores the merged prefix under its identifier. *)
Lemma onPrefixVersionsReply_lookup `{!Collaborators} (prefixId : QString)
  (data : QByteArray) (m : VersionsManager) :
  prefixes (onPrefixVersionsReply prefixId data m) !! prefixId
  = Some (mergeVersions (PrefixVersionsIndex (fromJson data))
                        (default Prefix.empty (prefixes m !! prefixId))).
Proof. unfold onPrefixVersionsReply; simpl. by rewrite lookup_insert_eq. Qed.

(** A successful per-prefix fetch is one run of the reply handler, after
    which the queue is drained further. *)
Lemma fetchNextPrefixOrFinish_reply `{!Collaborators} (env : Env)
  (prefixId : QString) (rest : list QString) (data : QByteArray)
  (m : VersionsManager) (w : World) :
  get env (storeUrl m +:+ "/" +:+ prefixId +:+ "/versions/versions.json")
  = ReplyData data ->
  exists w',
    fetchNextPrefixOrFinish env (prefixId :: rest) m w
    = fetchNextPrefixOrFinish env rest
        (onPrefixVersionsReply prefixId data
           (set_prefixFetchQueue (fun _ => rest) m)) w'
    /\ versionsOf (set_prefixFetchQueue (fun _ => rest) m) prefixId
       = versionsOf m prefixId.
Proof.
  intros Hreply. eexists. split; [|done].
  simpl. by rewrite Hreply.
Qed.

(** C1 (as amended).  When neither the local version list of a prefix nor
    the fetched remote list repeats an identifier, the version list left by
    a successful per-prefix fetch holds exactly the identifiers of the two
    lists, none twice, in descending order, and is at least as long as the
    longer of the two. *)
Theorem merged_versions_union `{!Collaborators} (prefixId : QString)
  (data : QByteArray) (m : VersionsManager) :
  NoDup (versionsOf m prefixId) ->
  NoDup (PrefixVersionsIndex.versions (PrefixVersionsIndex (fromJson data))) ->
  (forall v,
      v ∈ versionsOf (onPrefixVersionsReply prefixId data m) prefixId
      <-> v ∈ versionsOf m prefixId
          \/ v ∈ PrefixVersionsIndex.versions
                   (PrefixVersionsIndex (fromJson data)))
  /\ NoDup (versionsOf (onPrefixVersionsReply prefixId data m) prefixId)
  /\ Sorted greater_eq (versionsOf (onPrefixVersionsReply prefixId data m) prefixId)
  /\ (List.length (versionsOf m prefixId)
      `max` List.length (PrefixVersionsIndex.versions
                           (PrefixVersionsIndex (fromJson data)))
      <= List.length (versionsOf (onPrefixVersionsReply prefixId data m) prefixId))%nat.
Proof.
  intros Hlocal Hremote.
  unfold versionsOf at 1 3 4 6. rewrite onPrefixVersionsReply_lookup; simpl.
  split; [intros v; apply mergeVersions_elem_of|].
  split; [by apply mergeVersions_NoDup|].
  split; [apply mergeVersions_Sorted|].
  apply Nat.max_lub;
    [apply mergeVersions_length_local | by apply mergeVersions_length_remote].
Qed.

Section merged_versions_examples.
Import Fixtures.

Lemma merged_versions_union_witness :
  NoDup (versionsOf
           (onPrefixVersionsReply "release" (bytes "versions-release")
              (set_prefixes <["release" := Prefix.mk "release" "" ["1.0"] ""]>
                            manager))
           "release")
  /\ versionsOf
       (onPrefixVersionsReply "release" (bytes "versions-release")
          (set_prefixes <["release" := Prefix.mk "release" "" ["1.0"] ""]>
                        manager))
       "release"
     = ["1.2"; "1.1"; "1.0"].
Proof.
  split; [|by vm_compute].
  refine (proj1 (proj2 (merged_versions_union "release"
                          (bytes "versions-release")
                          (set_prefixes
                             <["release" := Prefix.mk "release" "" ["1.0"] ""]>
                             manager) _ _)));
    apply (bool_decide_unpack _); by vm_compute.
Defined.

(** C1 fails as stated: a remote list that repeats an identifier unknown
    locally leaves it twice in the version list, and one that repeats an
    identifier known locally is longer than the merged list. *)
Lemma merged_versions_keep_remote_repeats :
  versionsOf (onPrefixVersionsReply "release" (bytes "versions-repeated") manager)
             "release"
  = ["1.0"; "1.0"]
  /\ ~ NoDup (versionsOf
                (onPrefixVersionsReply "release" (bytes "versions-repeated")
                                       manager)
                "release")
  /\ (List.length
        (versionsOf
           (onPrefixVersionsReply "release" (bytes "versions-repeated")
              (set_prefixes <["release" := Prefix.mk "release" "" ["1.0"] ""]>
                            manager))
           "release")
      < List.length (PrefixVersionsIndex.versions
                       (PrefixVersionsIndex
                          (fromJson (bytes "versions-repeated")))))%nat.
Proof.
  split; [by vm_compute|]. split.
  - intros Hnodup. apply (bool_decide_pack _) in Hnodup.
    vm_compute in Hnodup. done.
  - vm_compute. lia.
Qed.

End merged_versions_examples.

(** ** Prefix discovery: merging the remote prefixes index *)

Section merge_remote_index.
Variable remoteIndex : gmap QString PrefixInfo.t.

Lemma mergeRemotePrefix_index (m : VersionsManager) (id : QString) :
  index (mergeRemotePrefix remoteIndex m id)
  = <[id := default PrefixInfo.empty (remoteIndex !! id)]> (index m).
Proof. unfold mergeRemotePrefix; simpl. by destruct (prefixes m !! id). Qed.

Lemma mergeRemotePrefix_prefixes_dom (m : VersionsManager) (id : QString) :
  dom (prefixes (mergeRemotePrefix remoteIndex m id))
  = dom (prefixes m) ∪ {[id]}.
Proof.
  unfold mergeRemotePrefix; simpl.
  destruct (prefixes m !! id) eqn:Hid; simpl.
  - apply (elem_of_dom_2 (D := gset QString)) in Hid.
    apply set_eq. intros k. rewrite elem_of_union, elem_of_singleton.
    split; [by left | by intros [?| ->]].
  - by rewrite dom_insert_L, (comm_L (∪)).
Qed.

(** A prefix known before the merge keeps its [Prefix] object. *)
Lemma mergeRemotePrefix_prefixes_known (m : VersionsManager) (id k : QString)
  (prefix : Prefix.t) :
  prefixes m !! k = Some prefix ->
  prefixes (mergeRemotePrefix remoteIndex m id) !! k = Some prefix.
Proof.
  intros Hk. unfold mergeRemotePrefix; simpl.
  destruct (prefixes m !! id) eqn:Hid; simpl; [done|].
  rewrite lookup_insert_ne; [done|]. intros ->. congruence.
Qed.

Lemma mergeRemotePrefix_queue (m : VersionsManager) (id : QString) :
  prefixFetchQueue (mergeRemotePrefix remoteIndex m id)
  = prefixFetchQueue m ++ [id].
Proof. unfold mergeRemotePrefix; simpl. by destruct (prefixes m !! id). Qed.

Lemma merge_loop_index (ids : list QString) (m : VersionsManager) (k : QString) :
  index (foldl (mergeRemotePrefix remoteIndex) m ids) !! k
  = if decide (k ∈ ids)
    then Some (default PrefixInfo.empty (remoteIndex !! k))
    else index m !! k.
Proof.
  revert m. induction ids as [|id ids IH]; intros m; cbn [foldl].
  - by rewrite decide_False by apply not_elem_of_nil.
  - rewrite IH, mergeRemotePrefix_index.
    destruct (decide (k ∈ ids)) as [Hin|Hout].
    + by rewrite decide_True by (by right).
    + destruct (decide (k = id)) as [->|Hne].
      * rewrite decide_True by left. by rewrite lookup_insert_eq.
      * rewrite decide_False by (by intros [?|?]%elem_of_cons).
        by rewrite lookup_insert_ne.
Qed.

Lemma merge_loop_prefixes_dom (ids : list QString) (m : VersionsManager) :
  dom (prefixes (foldl (mergeRemotePrefix remoteIndex) m ids))
  = dom (prefixes m) ∪ list_to_set ids.
Proof.
  revert m. induction ids as [|id ids IH]; intros m; simpl.
  - cbn. by rewrite (right_id_L ∅ (∪)).
  - rewrite IH, mergeRemotePrefix_prefixes_dom. cbn [list_to_set].
    by rewrite <- (assoc_L (∪)).
Qed.

Lemma merge_loop_prefixes_known (ids : list QString) (m : VersionsManager)
  (k : QString) (prefix : Prefix.t) :
  prefixes m !! k = Some prefix ->
  prefixes (foldl (mergeRemotePrefix remoteIndex) m ids) !! k = Some prefix.
Proof.
  revert m. induction ids as [|id ids IH]; intros m Hk; simpl; [done|].
  by apply IH, mergeRemotePrefix_prefixes_known.
Qed.

Lemma merge_loop_queue (ids : list QString) (m : VersionsManager) :
  prefixFetchQueue (foldl (mergeRemotePrefix remoteIndex) m ids)
  = prefixFetchQueue m ++ ids.
Proof.
  revert m. induction ids as [|id ids IH]; intros m; simpl.
  - by rewrite app_nil_r.
  - rewrite IH, mergeRemotePrefix_queue. by rewrite <- app_assoc.
Qed.

Lemma elem_of_keys (k : QString) :
  k ∈ (map_to_list remoteIndex).*1 <-> is_Some (remoteIndex !! k).
Proof.
  rewrite list_elem_of_fmap. split.
  - intros [[k' info] [-> Hin%elem_of_map_to_list]]. by exists info.
  - intros [info Hinfo]. exists (k, info). split; [done|].
    by apply elem_of_map_to_list.
Qed.

(** The merged index is the remote index laid over the local one. *)
Lemma mergeRemoteIndex_index (m : VersionsManager) :
  index (mergeRemoteIndex remoteIndex m) = remoteIndex ∪ index m.
Proof.
  apply map_eq. intros k. unfold mergeRemoteIndex.
  rewrite merge_loop_index, lookup_union.
  destruct (decide (k ∈ (map_to_list remoteIndex).*1)) as [Hin|Hout].
  - apply elem_of_keys in Hin as [info Hinfo]. rewrite Hinfo; simpl.
    by destruct (index m !! k).
  - rewrite elem_of_keys, <- eq_None_not_Some in Hout. rewrite Hout.
    by destruct (index m !! k).
Qed.

Lemma mergeRemoteIndex_queue (m : VersionsManager) :
  prefixFetchQueue (mergeRemoteIndex remoteIndex m)
  = prefixFetchQueue m ++ (map_to_list remoteIndex).*1.
Proof. apply merge_loop_queue. Qed.

(** A prefix the merge loop meets for the first time is created with the
    remote description. *)
Lemma merge_loop_prefixes_new (ids : list QString) (m : VersionsManager)
  (k : QString) :
  k ∈ ids ->
  prefixes m !! k = None ->
  prefixes (foldl (mergeRemotePrefix remoteIndex) m ids) !! k
  = Some (Prefix.Prefix k
            (PrefixInfo.about (default PrefixInfo.empty (remoteIndex !! k)))).
Proof.
  revert m. induction ids as [|id ids IH]; intros m Hin Hnew.
  - by apply elem_of_nil in Hin.
  - cbn [foldl]. destruct (decide (k = id)) as [->|Hne].
    + apply merge_loop_prefixes_known.
      unfold mergeRemotePrefix; cbn. rewrite Hnew; cbn.
      by rewrite lookup_insert_eq.
    + apply IH.
      * by apply elem_of_cons in Hin as [?|?].
      * unfold mergeRemotePrefix; cbn.
        destruct (prefixes m !! id); cbn; [done|].
        by rewrite lookup_insert_ne.
Qed.

(** C2 (as amended).  After a fetched prefixes index is merged, the keys
    of the in-memory index and the keys of the prefix table are each
    those held before together with those of the remote index.  In the
    in-memory index every remote identifier carries the remote metadata,
    whether or not it was known before.  In the prefix table a prefix the
    merge creates carries the remote description, and a prefix known
    before keeps its object as it was, its description included. *)
Theorem merged_index_remote_wins (m : VersionsManager) :
  dom (index (mergeRemoteIndex remoteIndex m))
  = dom (index m) ∪ dom remoteIndex
  /\ dom (prefixes (mergeRemoteIndex remoteIndex m))
     = dom (prefixes m) ∪ dom remoteIndex
  /\ (forall id info,
        remoteIndex !! id = Some info ->
        index (mergeRemoteIndex remoteIndex m) !! id = Some info)
  /\ (forall id info,
        remoteIndex !! id = Some info ->
        prefixes m !! id = None ->
        getPrefixes (mergeRemoteIndex remoteIndex m) !! id
        = Some (Prefix.Prefix id (PrefixInfo.about info)))
  /\ (forall id prefix,
        prefixes m !! id = Some prefix ->
        getPrefixes (mergeRemoteIndex remoteIndex m) !! id = Some prefix).
Proof.
  split; [|split; [|split; [|split]]].
  - rewrite mergeRemoteIndex_index, dom_union_L. apply (comm_L (∪)).
  - unfold mergeRemoteIndex. rewrite merge_loop_prefixes_dom. f_equal.
    apply set_eq. intros k.
    by rewrite elem_of_list_to_set, elem_of_keys, elem_of_dom.
  - intros id info Hid. rewrite mergeRemoteIndex_index.
    by apply lookup_union_Some_l.
  - intros id info Hid Hnew. unfold getPrefixes, mergeRemoteIndex.
    rewrite merge_loop_prefixes_new; [by rewrite Hid | | done].
    apply elem_of_keys. by exists info.
  - intros id prefix Hknown. by apply merge_loop_prefixes_known.
Qed.

(** Identifiers absent from the remote index keep their local metadata. *)
Lemma mergeRemoteIndex_local_kept (m : VersionsManager) (id : QString) :
  remoteIndex !! id = None ->
  index (mergeRemoteIndex remoteIndex m) !! id = index m !! id.
Proof.
  intros Hid. rewrite mergeRemoteIndex_index, lookup_union, Hid.
  by destruct (index m !! id).
Qed.

End merge_remote_index.

(** The rest of the flow leaves the merged index as it is. *)
Lemma setFetchPrefixesResult_index `{!Collaborators} (result : bool)
  (m : VersionsManager) (w : World) :
  index (setFetchPrefixesResult result m w).1 = index m.
Proof. done. Qed.

Lemma fetchNextPrefixOrFinish_index `{!Collaborators} (env : Env)
  (queue : list QString) (m : VersionsManager) (w : World) :
  index (fetchNextPrefixOrFinish env queue m w).1 = index m.
Proof.
  revert m w. induction queue as [|prefixId rest IH]; intros m w; simpl.
  - done.
  - destruct (get env _); [done|]. by rewrite IH.
Qed.

(** Whatever happens after the merge (the index file cannot be opened, a
    per-prefix fetch fails, or all succeed), a flow that received the
    remote index ends with the merged index in memory. *)
Lemma fetchPrefixes_index `{!Collaborators} (env : Env) (m : VersionsManager)
  (w : World) (data : QByteArray) :
  fetchingPrefixes m = false ->
  get env (storeUrl m +:+ "/prefixes.json") = ReplyData data ->
  index (fetchPrefixes env m w).1 = PrefixesIndex (fromJson data) ∪ index m.
Proof.
  intros Hidle Hreply. unfold fetchPrefixes. rewrite Hidle; simpl.
  rewrite Hreply.
  destruct (saveIndex env _ _) as [[|] w'].
  - by rewrite fetchNextPrefixOrFinish_index, mergeRemoteIndex_index.
  - by rewrite setFetchPrefixesResult_index, mergeRemoteIndex_index.
Qed.

Section merge_remote_index_examples.
Import Fixtures.

(** The flow on the small store: the index entry of [release] takes the
    remote description, the [Prefix] object known before keeps its own,
    and its version list is the remote one. *)
Example fetchPrefixes_release :
  index (fetchPrefixes env manager world).1 !! "release"
  = Some (PrefixInfo.mk "Stable builds")
  /\ prefixes (fetchPrefixes env manager world).1 !! "release"
     = Some (Prefix.mk "release" "Local builds" ["1.2"; "1.1"] "1.2")
  /\ emitted onFetchPrefixesResult (trace (fetchPrefixes env manager world).2)
     = [true].
Proof. by vm_compute. Qed.

(** C2 fails as stated: [release] is known locally with the description
    "Local builds" and the remote index describes it as "Stable builds";
    after the merge, and after the whole flow, the prefix table still
    gives the local description. *)
Lemma known_prefix_keeps_local_description :
  PrefixesIndex (fromJson (bytes "prefixes-remote")) !! "release"
  = Some (PrefixInfo.mk "Stable builds")
  /\ Prefix.about
       <$> getPrefixes
             (mergeRemoteIndex (PrefixesIndex (fromJson (bytes "prefixes-remote")))
                               manager) !! "release"
     = Some "Local builds"
  /\ Prefix.about <$> getPrefixes (fetchPrefixes env manager world).1 !! "release"
     = Some "Local builds".
Proof. by vm_compute. Qed.

End merge_remote_index_examples.

(** ** The per-version index flow *)

Section version_indexes_flow.
Context `{!Collaborators}.
Variable env : Env.
Variable version : FullVersionId.t.

Lemma trace_write (path : QString) (data : QByteArray) (w : World) :
  trace (write env path data w) = trace w ++ [EvWrite path data].
Proof. unfold write. by destruct (writeOk env path). Qed.

Lemma trace_openWriteOnly (path : QString) (w : World) :
  trace (openWriteOnly env path w).2
  = trace w ++ [EvOpen path (canOpenWrite env path)]
  /\ (openWriteOnly env path w).1 = canOpenWrite env path.
Proof. unfold openWriteOnly. by destruct (canOpenWrite env path). Qed.

(** Splits on whether each write lands; the trace does not depend on it. *)
Ltac split_writes :=
  unfold write;
  repeat match goal with
         | |- context [writeOk env ?path] => destruct (writeOk env path)
         end.

(** Brings the trace of a finished branch to the form [trace w ++ evs] and
    reads the requests and the emitted results off [evs]. *)
Ltac read_trace :=
  split_writes; simpl; rewrite <- ?app_assoc; simpl;
  eexists; (split; [reflexivity|]); split; reflexivity.

Lemma fetchVersionDataIndex_trace (m : VersionsManager) (w : World) :
  exists evs,
    trace (fetchVersionDataIndex env version m w).2 = trace w ++ evs
    /\ requests evs = [dataIndexLocation (storeUrl m) version]
    /\ emitted onFetchVersionIndexesResult evs
       = [stageOk env (dataIndexLocation (storeUrl m) version)
                  (dataIndexLocation (versionsPath m) version)].
Proof.
  unfold fetchVersionDataIndex, makeGetRequest, stageOk, openWriteOnly.
  destruct (get env _) as [err|data]; [read_trace|].
  destruct (canOpenWrite env _); read_trace.
Qed.

Lemma fetchVersionAssetsIndex_trace (assets : QString) (m : VersionsManager)
  (w : World) :
  exists evs,
    trace (fetchVersionAssetsIndex env version assets m w).2 = trace w ++ evs
    /\ requests evs
       = (if isEmpty assets then []
          else assetsIndexLocation (storeUrl m) assets
               :: (if stageOk env (assetsIndexLocation (storeUrl m) assets)
                              (assetsIndexLocation (dataPath m) assets)
                   then [dataIndexLocation (storeUrl m) version] else []))
    /\ emitted onFetchVersionIndexesResult evs
       = [negb (isEmpty assets)
          && stageOk env (assetsIndexLocation (storeUrl m) assets)
                     (assetsIndexLocation (dataPath m) assets)
          && stageOk env (dataIndexLocation (storeUrl m) version)
                     (dataIndexLocation (versionsPath m) version)].
Proof.
  unfold fetchVersionAssetsIndex.
  destruct (isEmpty assets); [read_trace|].
  unfold makeGetRequest, stageOk at 1 2, openWriteOnly.
  destruct (get env (assetsIndexLocation _ _)) as [err|data]; [read_trace|].
  destruct (canOpenWrite env (assetsIndexLocation _ _)); [|read_trace].
  cbn [negb].
  split_writes;
    match goal with
    | |- context [fetchVersionDataIndex env version m ?w'] =>
        destruct (fetchVersionDataIndex_trace m w') as (evs & Htr & Hreq & Hres);
        rewrite Htr; clear Htr
    end;
    simpl; rewrite <- !app_assoc; simpl;
    (eexists; split; [reflexivity|]);
    rewrite !requests_cons, !emitted_cons, Hreq, Hres; by split.
Qed.

Lemma fetchVersionMainIndex_trace (m : VersionsManager) (w : World) :
  exists evs,
    trace (fetchVersionMainIndex env version m w).2 = trace w ++ evs
    /\ requests evs
       = versionIndexLocation (storeUrl m) version
         :: (if stageOk env (versionIndexLocation (storeUrl m) version)
                        (versionIndexLocation (versionsPath m) version)
                && negb (isEmpty (remoteAssets env m version))
             then assetsIndexLocation (storeUrl m) (remoteAssets env m version)
                  :: (if stageOk env
                           (assetsIndexLocation (storeUrl m)
                                                (remoteAssets env m version))
                           (assetsIndexLocation (dataPath m)
                                                (remoteAssets env m version))
                      then [dataIndexLocation (storeUrl m) version] else [])
             else [])
    /\ emitted onFetchVersionIndexesResult evs
       = [stageOk env (versionIndexLocation (storeUrl m) version)
                  (versionIndexLocation (versionsPath m) version)
          && negb (isEmpty (remoteAssets env m version))
          && stageOk env
               (assetsIndexLocation (storeUrl m) (remoteAssets env m version))
               (assetsIndexLocation (dataPath m) (remoteAssets env m version))
          && stageOk env (dataIndexLocation (storeUrl m) version)
                     (dataIndexLocation (versionsPath m) version)].
Proof.
  unfold fetchVersionMainIndex, remoteAssets, replyData.
  unfold makeGetRequest, stageOk at 1 3, openWriteOnly.
  destruct (get env (versionIndexLocation _ _)) as [err|data]; [read_trace|].
  destruct (canOpenWrite env (versionIndexLocation _ _)); [|read_trace].
  cbn [negb andb].
  split_writes;
    match goal with
    | |- context [fetchVersionAssetsIndex env version ?a m ?w'] =>
        destruct (fetchVersionAssetsIndex_trace a m w')
          as (evs & Htr & Hreq & Hres);
        rewrite Htr; clear Htr
    end;
    simpl; rewrite <- !app_assoc; simpl;
    (eexists; split; [reflexivity|]);
    rewrite !requests_cons, !emitted_cons, Hreq, Hres;
    (split; [|done]); by destruct (isEmpty _).
Qed.

(** C3 (as amended).  The flow requests the version descriptor, then the
    assets descriptor, then the data descriptor, in that order and each at
    most once.  A stage gets through when its request is answered with
    data and its local file opens for writing.  The first stage that does
    not get through, or an empty assets-index reference after the first
    stage, ends the flow: nothing later is requested and the one result
    emitted is failure.  The result is success exactly when all three
    stages get through and the reference is not empty. *)
Theorem version_indexes_flow_stages (m : VersionsManager) (w : World) :
  fetchingVersionIndexes m = false ->
  exists evs,
    trace (fetchVersionIndexes env version m w).2 = trace w ++ evs
    /\ requests evs
       = versionIndexLocation (storeUrl m) version
         :: (if stageOk env (versionIndexLocation (storeUrl m) version)
                        (versionIndexLocation (versionsPath m) version)
                && negb (isEmpty (remoteAssets env m version))
             then assetsIndexLocation (storeUrl m) (remoteAssets env m version)
                  :: (if stageOk env
                           (assetsIndexLocation (storeUrl m)
                                                (remoteAssets env m version))
                           (assetsIndexLocation (dataPath m)
                                                (remoteAssets env m version))
                      then [dataIndexLocation (storeUrl m) version] else [])
             else [])
    /\ requests evs
       `prefix_of` [versionIndexLocation (storeUrl m) version;
                    assetsIndexLocation (storeUrl m) (remoteAssets env m version);
                    dataIndexLocation (storeUrl m) version]
    /\ emitted onFetchVersionIndexesResult evs
       = [stageOk env (versionIndexLocation (storeUrl m) version)
                  (versionIndexLocation (versionsPath m) version)
          && negb (isEmpty (remoteAssets env m version))
          && stageOk env
               (assetsIndexLocation (storeUrl m) (remoteAssets env m version))
               (assetsIndexLocation (dataPath m) (remoteAssets env m version))
          && stageOk env (dataIndexLocation (storeUrl m) version)
                     (dataIndexLocation (versionsPath m) version)].
Proof.
  intros Hidle. unfold fetchVersionIndexes. rewrite Hidle.
  match goal with
  | |- context [fetchVersionMainIndex env version ?m' ?w'] =>
      destruct (fetchVersionMainIndex_trace m' w') as (evs & Htr & Hreq & Hres);
      rewrite Htr; clear Htr
  end.
  change (remoteAssets env (set_fetchingVersionIndexes true m) version)
    with (remoteAssets env m version) in *.
  simpl in *. rewrite <- app_assoc; simpl.
  eexists; split; [reflexivity|].
  rewrite requests_cons, emitted_cons, Hreq, Hres.
  split; [done|]. split; [|done].
  destruct (_ && _); [|eexists; reflexivity].
  destruct (stageOk _ _ _); [done | eexists; reflexivity].
Qed.

(** C10.  Once the version descriptor has been fetched and its local file
    opened, the fetched bytes are written before anything is done with
    what they parse to: the flow's actions are the request, the directory
    creation, the open and the write of the fetched bytes, in this order,
    and only then whatever follows from the parsed assets-index reference.
    When that reference is empty, what follows is the error line and the
    failure result, nothing is requested, and the file stays on disk,
    holding the fetched bytes if the write landed. *)
Theorem version_descriptor_stays_on_failure (m : VersionsManager) (w : World)
  (data : QByteArray) :
  fetchingVersionIndexes m = false ->
  get env (versionIndexLocation (storeUrl m) version) = ReplyData data ->
  canOpenWrite env (versionIndexLocation (versionsPath m) version) = true ->
  exists evs later,
    trace (fetchVersionIndexes env version m w).2 = trace w ++ evs
    /\ evs
       = [EvLog LInfo ("Fetching actual indexes for the '"
                         +:+ FullVersionId.toString version +:+ "'...");
          EvLog LInfo ("Requesting '"
                         +:+ versionIndexLocation (storeUrl m) version
                         +:+ "'...");
          EvRequest (versionIndexLocation (storeUrl m) version);
          EvMkpath (versionDir m version);
          EvOpen (versionIndexLocation (versionsPath m) version) true;
          EvWrite (versionIndexLocation (versionsPath m) version) data]
         ++ later
    /\ EvWrite (versionIndexLocation (versionsPath m) version) data ∈ evs
    /\ (isEmpty (VersionIndex.assetsIndex
                   (VersionIndex.VersionIndex (fromJson data))) = true ->
        emitted onFetchVersionIndexesResult evs = [false]
        /\ requests evs = [versionIndexLocation (storeUrl m) version]
        /\ files (fetchVersionIndexes env version m w).2
             !! versionIndexLocation (versionsPath m) version
           = Some (if writeOk env (versionIndexLocation (versionsPath m) version)
                   then data else [])
        /\ later
           = [EvLog LError
                ("Failed to resolve assets index path for the version '"
                   +:+ FullVersionId.toString version +:+ "'");
              EvEmit onFetchVersionIndexesResult false]).
Proof.
  intros Hidle Hreply Hopen.
  unfold fetchVersionIndexes. rewrite Hidle.
  unfold fetchVersionMainIndex, makeGetRequest, openWriteOnly.
  cbn [storeUrl versionsPath set_fetchingVersionIndexes].
  rewrite Hreply, Hopen. cbn [negb].
  match goal with
  | |- context [fetchVersionAssetsIndex env version ?a ?m' ?w'] =>
      destruct (fetchVersionAssetsIndex_trace a m' w')
        as (evs & Htr & Hreq & Hres);
      pose proof Htr as Hlater;
      rewrite Htr; clear Htr
  end.
  rewrite trace_write. simpl. rewrite <- !app_assoc. simpl.
  eexists _, evs; split; [reflexivity|]. split; [reflexivity|]. split.
  { do 5 apply list_elem_of_further. apply list_elem_of_here. }
  intros Hempty. simpl in Hreq, Hres. rewrite Hempty in Hreq, Hres.
  rewrite !requests_cons, !emitted_cons, Hreq, Hres.
  split; [done|]. split; [done|].
  unfold fetchVersionAssetsIndex in Hlater |- *. simpl in Hlater.
  rewrite Hempty in Hlater |- *. split.
  - unfold write. destruct (writeOk env _); simpl; by rewrite lookup_insert_eq.
  - unfold setFetchVersionIndexesResult, log_error, emit in Hlater.
    cbn [snd trace] in Hlater. rewrite <- app_assoc in Hlater.
    by apply app_inv_head in Hlater.
Qed.

End version_indexes_flow.

Section version_indexes_examples.
Import Fixtures.

Lemma version_indexes_flow_stages_witness :
  exists evs,
    trace (fetchVersionIndexes env release_1_0 manager world).2
    = trace world ++ evs
    /\ requests evs
       = ["http://store/release/1.0/1.0.json";
          "http://store/assets/indexes/legacy.json";
          "http://store/release/1.0/data.json"]
    /\ emitted onFetchVersionIndexesResult evs = [true].
Proof.
  destruct (version_indexes_flow_stages env release_1_0 manager world)
    as (evs & Htr & Hreq & _ & Hres); [reflexivity|].
  exists evs. split; [exact Htr|]. split; [exact Hreq | exact Hres].
Defined.

(** C3 fails as stated: with a disk on which no write lands, every request
    is answered and every file opens, so the flow runs all three stages
    and reports success although the version descriptor it meant to save
    is an empty file. *)
Lemma version_indexes_flow_ignores_failed_write :
  writeOk envDiskFull "/data/versions/release/1.0/1.0.json" = false
  /\ requests (trace (fetchVersionIndexes envDiskFull release_1_0 manager
                                           world).2)
     = ["http://store/release/1.0/1.0.json";
        "http://store/assets/indexes/legacy.json";
        "http://store/release/1.0/data.json"]
  /\ emitted onFetchVersionIndexesResult
       (trace (fetchVersionIndexes envDiskFull release_1_0 manager world).2)
     = [true]
  /\ files (fetchVersionIndexes envDiskFull release_1_0 manager world).2
       !! "/data/versions/release/1.0/1.0.json"
     = Some [].
Proof. by vm_compute. Qed.

Lemma version_descriptor_stays_on_failure_witness :
  exists evs,
    trace (fetchVersionIndexes envNoAssets release_1_0 manager world).2
    = trace world ++ evs
    /\ emitted onFetchVersionIndexesResult evs = [false]
    /\ files (fetchVersionIndexes envNoAssets release_1_0 manager world).2
         !! "/data/versions/release/1.0/1.0.json"
       = Some (bytes "version-no-assets").
Proof.
  destruct (version_descriptor_stays_on_failure envNoAssets release_1_0
              manager world (bytes "version-no-assets"))
    as (evs & later & Htr & _ & _ & Hfail); [reflexivity..|].
  destruct Hfail as (Hres & _ & Hfile & _); [reflexivity|].
  exists evs. split; [exact Htr|]. split; [exact Hres | exact Hfile].
Defined.

End version_indexes_examples.

(** ** Local-version discovery *)

Section local_versions.
Context `{!Collaborators}.
Variable env : Env.
Variable prefixId : QString.

Lemma scanVersionDir_spec (prefixPath versionId : QString)
  (versions : list QString) (w : World) :
  exists evs,
    scanVersionDir prefixId prefixPath versionId (versions, w)
    = (versions ++ (if accepted prefixPath w versionId then [versionId] else []),
       {| files := files w; trace := trace w ++ evs |})
    /\ warnings evs
       = match wrongIdWarning prefixPath w versionId with
         | Some msg => [msg]
         | None => []
         end.
Proof.
  unfold scanVersionDir, accepted, wrongIdWarning.
  destruct (readAll _ w) as [bytes|].
  - destruct (decide (VersionIndex.id (VersionIndex.VersionIndex (fromJson bytes))
                      = versionId)) as [Heq|Hne].
    + rewrite (bool_decide_eq_true_2 _ Heq).
      rewrite bool_decide_eq_false_2 by (by intros Hne).
      by eexists [_].
    + rewrite (bool_decide_eq_false_2 _ Hne), (bool_decide_eq_true_2 _ Hne).
      rewrite app_nil_r. by eexists [_].
  - exists []. rewrite !app_nil_r. by destruct w.
Qed.

(** The loop of the scan: the accepted directories are appended in
    listing order, one warning is logged per directory whose descriptor
    carries another [id], and no file changes. *)
Lemma scan_loop_spec (prefixPath : QString) (dirs versions : list QString)
  (w : World) :
  exists evs,
    foldl (fun st versionId => scanVersionDir prefixId prefixPath versionId st)
          (versions, w) dirs
    = (versions ++ List.filter (accepted prefixPath w) dirs,
       {| files := files w; trace := trace w ++ evs |})
    /\ warnings evs = omap (wrongIdWarning prefixPath w) dirs.
Proof.
  revert versions w. induction dirs as [|dir dirs IH]; intros versions w.
  - exists []. cbn [foldl List.filter omap]. rewrite !app_nil_r. by destruct w.
  - cbn [foldl].
    destruct (scanVersionDir_spec prefixPath dir versions w)
      as (evs1 & -> & Hwarn1).
    destruct (IH (versions
                    ++ (if accepted prefixPath w dir then [dir] else []))
                 {| files := files w; trace := trace w ++ evs1 |})
      as (evs2 & -> & Hwarn2).
    exists (evs1 ++ evs2). split.
    + f_equal.
      * cbn [List.filter]. rewrite <- app_assoc. f_equal.
        by destruct (accepted prefixPath w dir).
      * cbn [files trace]. by rewrite app_assoc.
    + rewrite warnings_app, Hwarn1, Hwarn2.
      change (omap (wrongIdWarning prefixPath w) (dir :: dirs))
        with (match wrongIdWarning prefixPath w dir with
              | Some msg => msg :: omap (wrongIdWarning prefixPath w) dirs
              | None => omap (wrongIdWarning prefixPath w) dirs
              end).
      by destruct (wrongIdWarning prefixPath w dir).
Qed.

(** The scan as a whole. *)
Lemma findLocalVersions_spec (m : VersionsManager) (w : World) :
  exists evs,
    (findLocalVersions env prefixId m w).2
    = {| files := files w; trace := trace w ++ evs |}
    /\ warnings evs
       = omap (wrongIdWarning (versionsPath m +:+ "/" +:+ prefixId) w)
              (entryList env (versionsPath m +:+ "/" +:+ prefixId))
    /\ versionsPath (findLocalVersions env prefixId m w).1 = versionsPath m
    /\ versionsOf (findLocalVersions env prefixId m w).1 prefixId
       = sort_greater (versionsOf m prefixId ++ localVersions env m w prefixId)
    /\ latestOf (findLocalVersions env prefixId m w).1 prefixId
       = (if bool_decide
               (1 < List.length
                      (versionsOf (findLocalVersions env prefixId m w).1 prefixId))%nat
          then nth 1 (versionsOf (findLocalVersions env prefixId m w).1 prefixId) ""
          else latestOf m prefixId).
Proof.
  unfold findLocalVersions, versionsOf, latestOf, localVersions.
  destruct (scan_loop_spec (versionsPath m +:+ "/" +:+ prefixId)
              (entryList env (versionsPath m +:+ "/" +:+ prefixId))
              (Prefix.versions (default Prefix.empty (prefixes m !! prefixId))) w)
    as (evs & -> & Hwarn).
  exists evs. cbn [fst snd prefixes set_prefixes versionsPath].
  rewrite lookup_insert_eq. by cbn.
Qed.

End local_versions.

Section local_versions_claims.
Context `{!Collaborators}.
Variable env : Env.
Variable prefixId : QString.

(** C5.  The scan leaves as the prefix's version list the identifiers it
    held before together with the accepted version directories, in
    descending order.  When that list has more than one element the
    latest-version pointer is its second element; otherwise the pointer is
    as it was before the scan. *)
Theorem latest_is_second_version (m : VersionsManager) (w : World) :
  versionsOf (findLocalVersions env prefixId m w).1 prefixId
  = sort_greater (versionsOf m prefixId ++ localVersions env m w prefixId)
  /\ Sorted greater_eq
            (versionsOf (findLocalVersions env prefixId m w).1 prefixId)
  /\ ((1 < List.length
             (versionsOf (findLocalVersions env prefixId m w).1 prefixId))%nat ->
      versionsOf (findLocalVersions env prefixId m w).1 prefixId !! 1%nat
      = Some (latestOf (findLocalVersions env prefixId m w).1 prefixId))
  /\ ((List.length
         (versionsOf (findLocalVersions env prefixId m w).1 prefixId) <= 1)%nat ->
      latestOf (findLocalVersions env prefixId m w).1 prefixId
      = latestOf m prefixId).
Proof.
  destruct (findLocalVersions_spec env prefixId m w)
    as (evs & _ & _ & _ & Hversions & Hlatest).
  split; [done|].
  split; [rewrite Hversions; apply sort_greater_Sorted|].
  rewrite Hlatest. split; intros Hlen.
  - rewrite bool_decide_eq_true_2 by done.
    destruct (versionsOf _ prefixId) as [|v1 [|v2 vs]]; simpl in *; [lia..|done].
  - rewrite bool_decide_eq_false_2 by lia. done.
Qed.

(** A scan changes no file and does not move the versions directory, so a
    later scan of the same prefix accepts the same directories. *)
Lemma findLocalVersions_same_tree (m : VersionsManager) (w : World) :
  localVersions env (findLocalVersions env prefixId m w).1
                (findLocalVersions env prefixId m w).2 prefixId
  = localVersions env m w prefixId.
Proof.
  destruct (findLocalVersions_spec env prefixId m w)
    as (evs & Hw & _ & Hpath & _).
  unfold localVersions. rewrite Hpath, Hw. done.
Qed.

(** The constructor scans a prefix it has just inserted, with no version. *)
Lemma initPrefix_starts_empty (m : VersionsManager) (about : QString) :
  versionsOf (set_prefixes <[prefixId := Prefix.Prefix prefixId about]> m)
             prefixId
  = [].
Proof. unfold versionsOf; simpl. by rewrite lookup_insert_eq. Qed.

(** C7.  A version directory whose cached descriptor carries another [id]
    gets a warning naming the file and the [id] found, is not added to the
    prefix's version list, and does not stop the scan: every accepted
    directory of the listing is in the list afterwards. *)
Theorem mismatched_version_skipped (m : VersionsManager) (w : World)
  (versionId : QString) (data : QByteArray) :
  versionId ∈ entryList env (versionsPath m +:+ "/" +:+ prefixId) ->
  readAll ((versionsPath m +:+ "/" +:+ prefixId) +:+ "/" +:+ versionId
             +:+ "/" +:+ versionId +:+ ".json") w
  = Some data ->
  VersionIndex.id (VersionIndex.VersionIndex (fromJson data)) <> versionId ->
  (exists evs,
      trace (findLocalVersions env prefixId m w).2 = trace w ++ evs
      /\ ("A version index '"
            +:+ ((versionsPath m +:+ "/" +:+ prefixId) +:+ "/" +:+ versionId
                   +:+ "/" +:+ versionId +:+ ".json")
            +:+ "' contains the wrong version id '"
            +:+ VersionIndex.id (VersionIndex.VersionIndex (fromJson data))
            +:+ "'")
         ∈ warnings evs)
  /\ (versionId ∉ versionsOf m prefixId ->
      versionId ∉ versionsOf (findLocalVersions env prefixId m w).1 prefixId)
  /\ (forall v,
        v ∈ localVersions env m w prefixId ->
        v ∈ versionsOf (findLocalVersions env prefixId m w).1 prefixId).
Proof.
  intros Hlisted Hread Hwrong.
  destruct (findLocalVersions_spec env prefixId m w)
    as (evs & Hw & Hwarn & _ & Hversions & _).
  split; [|split].
  - exists evs. rewrite Hw. split; [done|].
    rewrite Hwarn. apply list_elem_of_omap. exists versionId.
    split; [done|]. unfold wrongIdWarning.
    rewrite Hread. cbn zeta. by rewrite bool_decide_eq_true_2.
  - intros Hnew. rewrite Hversions, sort_greater_elem_of, elem_of_app.
    intros [Hold|Hfound]; [done|].
    unfold localVersions in Hfound.
    apply elem_of_filter_bool in Hfound as [_ Haccepted].
    unfold accepted in Haccepted. rewrite Hread in Haccepted.
    by apply bool_decide_eq_true in Haccepted.
  - intros v Hv. rewrite Hversions, sort_greater_elem_of, elem_of_app. by right.
Qed.

End local_versions_claims.

Section local_versions_examples.
Import Fixtures.

Lemma mismatched_version_skipped_witness :
  "1.1" ∉ versionsOf (findLocalVersions env "release" manager world).1 "release".
Proof.
  refine (proj1 (proj2 (mismatched_version_skipped env "release" manager world
                          "1.1" (bytes "version-1.2") _ _ _)) _).
  - apply (bool_decide_unpack _). by vm_compute.
  - by vm_compute.
  - by vm_compute.
  - apply (bool_decide_unpack _). by vm_compute.
Defined.

(** With the directories 1.0 and 1.1 both accepted, the pointer is the
    second element, 1.0. *)
Example latest_of_two_versions :
  versionsOf
    (findLocalVersions env "release" manager
       (mkWorld (<["/data/versions/release/1.1/1.1.json" := bytes "version-1.1"]>
                   (files world)) [])).1 "release"
  = ["1.1"; "1.0"]
  /\ latestOf
       (findLocalVersions env "release" manager
          (mkWorld (<["/data/versions/release/1.1/1.1.json" := bytes "version-1.1"]>
                      (files world)) [])).1 "release"
     = "1.0".
Proof. by vm_compute. Qed.

End local_versions_examples.

(** ** Assembling the file list *)

Section fill_version_files.
Context `{!Collaborators}.
Variable m : VersionsManager.
Variable version : FullVersionId.t.

Lemma foldl_append_map {A B} (f : A -> B) (l : list A) (acc : list B) :
  foldl (fun acc x => acc ++ [f x]) acc l = acc ++ map f l.
Proof.
  revert acc. induction l as [|x l IH]; intros acc; simpl.
  - by rewrite app_nil_r.
  - by rewrite IH, <- app_assoc.
Qed.

Lemma loadIndex_files {T} (ctor : QJsonObject -> T) (path : QString)
  (w w' : World) :
  files w' = files w -> loadIndex ctor path w' = loadIndex ctor path w.
Proof. unfold loadIndex, readAll. by intros ->. Qed.

(** The library loop appends, in descriptor order, the libraries that are
    allowed on the platform and listed in the data index; it only logs. *)
Lemma library_loop_spec (dataIndex : DataIndex.t) (libs : list LibraryInfo.t)
  (acc : list FileInfo.t) (w : World) :
  (foldl (addLibrary m dataIndex) (acc, w) libs).1
  = acc ++ map (fun libInfo => libFile m dataIndex (getLibraryPath libInfo))
               (List.filter (libraryListed dataIndex) libs)
  /\ files (foldl (addLibrary m dataIndex) (acc, w) libs).2 = files w.
Proof.
  revert acc w. induction libs as [|libInfo libs IH]; intros acc w.
  - cbn. by rewrite app_nil_r.
  - cbn [foldl List.filter]. unfold addLibrary at 2 4, libraryListed at 1.
    destruct (isLibraryAllowed libInfo); cbn [negb andb]; [|apply IH].
    destruct (DataIndex.libs dataIndex !! getLibraryPath libInfo) eqn:Hlib.
    + rewrite bool_decide_eq_true_2 by done.
      destruct (IH (acc ++ [libFile m dataIndex (getLibraryPath libInfo)]) w)
        as [-> ->].
      by rewrite <- app_assoc.
    + rewrite bool_decide_eq_false_2 by (by intros [? ?]).
      destruct (IH acc (log_warning ("Library '" +:+ getLibraryPath libInfo
                                       +:+ "' is missing in the data index") w))
        as [-> ->].
      done.
Qed.


End fill_version_files.

Section fill_version_files_examples.
Import Fixtures.

Example assembled_files_release_1_0 :
  (fillVersionFiles manager release_1_0 [] world).1
  = (true,
     [ FileInfo.FileInfo "http://store/release/1.0/1.0.jar"
                         "/data/versions/release/1.0/1.0.jar" "aa11" 10;
       FileInfo.FileInfo "http://store/release/1.0/files/servers.dat"
                         "/data/versions/release/1.0/files/servers.dat"
                         "bb22" 20;
       FileInfo.FileInfo "http://store/libraries/org/lib.jar"
                         "/data/libraries/org/lib.jar" "cc33" 30;
       FileInfo.FileInfo "http://store/assets/objects/ab/abcdef"
                         "/data/assets/objects/ab/abcdef" "abcdef" 40 ]).
Proof. by vm_compute. Qed.

End fill_version_files_examples.

(** ** The two shapes of a version descriptor *)

Section descriptor_shapes.

Lemma append_String (c : ascii) (s t : string) :
  String c s +:+ t = String c (s +:+ t).
Proof. reflexivity. Qed.

Lemma split_nonempty (sep : ascii) (s : QString) : split sep s <> [].
Proof.
  induction s as [|c s IH]; [done|]. cbn [split].
  destruct (Ascii.eqb c sep); [done|]. by destruct (split sep s).
Qed.







(** No document without the [arguments] key parses to an empty argument
    list. *)
Lemma legacy_arguments_nonempty (jObject : QJsonObject) :
  contains jObject "arguments" = false ->
  VersionIndex.gameArguments (VersionIndex.VersionIndex jObject) <> [].
Proof.
  intros Hlegacy. unfold VersionIndex.VersionIndex; cbn [VersionIndex.gameArguments].
  rewrite Hlegacy. apply split_nonempty.
Qed.




End descriptor_shapes.

(** ** Rewriting prefixes.json *)

Section save_index.
Context `{!Collaborators}.
Variable env : Env.

(** The last point of [saveIndexPoints] is where [saveIndex] ends. *)
Lemma saveIndexPoints_last (m : VersionsManager) (w : World) :
  last (saveIndexPoints env m w) = Some (saveIndex env m w).2.
Proof.
  unfold saveIndexPoints, saveIndex.
  destruct (openWriteOnly env (indexPath m) w) as [[|] w1]; done.
Qed.

(** C9 (as amended).  The index file is rewritten in place: it is opened
    write-only, which leaves it empty, and the new serialization is then
    written into it.  When the open succeeds and the write lands, the
    file holds its previous content before the open, nothing between the
    open and the write, and the complete new content after the write. *)
Theorem index_file_rewritten_in_place (m : VersionsManager) (w : World) :
  canOpenWrite env (indexPath m) = true ->
  writeOk env (indexPath m) = true ->
  (saveIndex env m w).1 = true
  /\ map (fun point => files point !! indexPath m) (saveIndexPoints env m w)
     = [files w !! indexPath m;
        Some [];
        Some (toJson (PrefixesIndex_toJsonObject (index m)))]
  /\ files (saveIndex env m w).2 !! indexPath m
     = Some (toJson (PrefixesIndex_toJsonObject (index m))).
Proof.
  intros Hopen Hwrite.
  unfold saveIndexPoints, saveIndex, openWriteOnly, write.
  rewrite Hopen, Hwrite. cbn. rewrite !lookup_insert_eq. done.
Qed.

End save_index.

Section save_index_examples.
Import Fixtures.

Lemma index_file_rewritten_in_place_witness :
  files (saveIndex env manager world).2 !! indexPath manager
  = Some (toJson (PrefixesIndex_toJsonObject (index manager))).
Proof.
  refine (proj2 (proj2 (index_file_rewritten_in_place env manager world _ _)));
    reflexivity.
Defined.

(** C9 fails as stated: while the index is being saved there is a point,
    after the open and before the write, at which the file on disk is
    neither its previous content nor the new one. *)
Lemma index_file_empty_during_save :
  exists point,
    point ∈ saveIndexPoints env manager world
    /\ files point !! indexPath manager <> files world !! indexPath manager
    /\ files point !! indexPath manager
       <> Some (toJson (PrefixesIndex_toJsonObject (index manager))).
Proof.
  exists (openWriteOnly env (indexPath manager) world).2.
  split; [|split].
  - apply list_elem_of_further, list_elem_of_here.
  - intros Heq. vm_compute in Heq. discriminate.
  - intros Heq. vm_compute in Heq. discriminate.
Qed.

End save_index_examples.

(** * Further properties *)

(** ** The prefix discovery flow as a whole *)

Section prefix_flow.
Context `{!Collaborators}.
Variable env : Env.

Lemma mergeRemotePrefix_settings (remoteIndex : gmap QString PrefixInfo.t)
  (m : VersionsManager) (id : QString) :
  storeUrl (mergeRemotePrefix remoteIndex m id) = storeUrl m
  /\ indexPath (mergeRemotePrefix remoteIndex m id) = indexPath m
  /\ fetchingPrefixes (mergeRemotePrefix remoteIndex m id) = fetchingPrefixes m.
Proof. unfold mergeRemotePrefix; simpl. by destruct (prefixes m !! id). Qed.

Lemma mergeRemoteIndex_settings (remoteIndex : gmap QString PrefixInfo.t)
  (m : VersionsManager) :
  storeUrl (mergeRemoteIndex remoteIndex m) = storeUrl m
  /\ indexPath (mergeRemoteIndex remoteIndex m) = indexPath m
  /\ fetchingPrefixes (mergeRemoteIndex remoteIndex m) = fetchingPrefixes m.
Proof.
  unfold mergeRemoteIndex. generalize (map_to_list remoteIndex).*1 as ids.
  intros ids. revert m. induction ids as [|id ids IH]; intros m; [done|].
  cbn [foldl]. destruct (IH (mergeRemotePrefix remoteIndex m id)) as (-> & -> & ->).
  apply mergeRemotePrefix_settings.
Qed.

(** Exposes the record a chain of log lines and actions builds. *)
Ltac expose_world :=
  cbn; unfold setFetchPrefixesResult, log_info, log_warning, log_error, mkpath, emit;
  cbn [files trace fst snd]; rewrite <- ?app_assoc; cbn [app].

(** Draining the queue asks for the versions manifest of the queued
    prefixes one after the other, in queue order, and stops after the
    first request that fails; it emits exactly one result, success when
    every request was answered, and changes no file. *)
Lemma drain_trace (queue : list QString) (m : VersionsManager)
  (w : World) :
  exists evs,
    (fetchNextPrefixOrFinish env queue m w).2
    = {| files := files w; trace := trace w ++ evs |}
    /\ requests evs
       = map (versionsLocation (storeUrl m)) (attempted env (storeUrl m) queue)
    /\ emitted onFetchPrefixesResult evs
       = [forallb (fun prefixId =>
                     answered env (versionsLocation (storeUrl m) prefixId))
                  queue].
Proof.
  revert m w. induction queue as [|prefixId rest IH]; intros m w.
  - exists [EvLog LInfo "All prefixes are successfully fetched!";
            EvEmit onFetchPrefixesResult true].
    by expose_world.
  - cbn [fetchNextPrefixOrFinish attempted forallb map].
    unfold makeGetRequest, answered, versionsLocation.
    cbn [storeUrl set_prefixFetchQueue].
    destruct (get env (storeUrl m +:+ "/" +:+ prefixId +:+ _)) as [err|data].
    + eexists. split; [expose_world; reflexivity|].
      by rewrite !requests_cons, !emitted_cons.
    + match goal with
      | |- context [fetchNextPrefixOrFinish env rest ?m' ?w'] =>
          destruct (IH m' w') as (evs & -> & Hreq & Hres)
      end.
      unfold answered, versionsLocation in Hreq, Hres.
      cbn [storeUrl onPrefixVersionsReply set_prefixes set_prefixFetchQueue]
        in Hreq, Hres.
      eexists (_ :: _ :: evs). split; [by expose_world|].
      by rewrite !requests_cons, !emitted_cons, Hreq, Hres.
Qed.

Lemma drain_end_state (queue : list QString) (m : VersionsManager) (w : World) :
  prefixFetchQueue (fetchNextPrefixOrFinish env queue m w).1 = []
  /\ fetchingPrefixes (fetchNextPrefixOrFinish env queue m w).1 = false
  /\ storeUrl (fetchNextPrefixOrFinish env queue m w).1 = storeUrl m
  /\ indexPath (fetchNextPrefixOrFinish env queue m w).1 = indexPath m.
Proof.
  revert m w. induction queue as [|prefixId rest IH]; intros m w; [done|].
  cbn [fetchNextPrefixOrFinish]. unfold makeGetRequest.
  destruct (get env _) as [err|data]; [done|].
  match goal with
  | |- context [fetchNextPrefixOrFinish env rest ?m' ?w'] =>
      destruct (IH m' w') as (-> & -> & -> & ->)
  end.
  done.
Qed.

(** X1.  A flow started while none is running ends with the in-flight
    flag down and the queue empty, whatever its outcome, and keeps the
    store URL and the index path. *)
Theorem prefix_flow_ends_idle (m : VersionsManager) (w : World) :
  fetchingPrefixes m = false ->
  fetchingPrefixes (fetchPrefixes env m w).1 = false
  /\ prefixFetchQueue (fetchPrefixes env m w).1 = []
  /\ storeUrl (fetchPrefixes env m w).1 = storeUrl m
  /\ indexPath (fetchPrefixes env m w).1 = indexPath m.
Proof.
  intros Hidle. unfold fetchPrefixes. rewrite Hidle.
  unfold makeGetRequest. cbn [storeUrl set_fetchingPrefixes].
  destruct (get env _) as [err|data]; [done|].
  destruct (mergeRemoteIndex_settings (PrefixesIndex (fromJson data))
              (set_fetchingPrefixes true m)) as (Hurl & Hpath & _).
  destruct (saveIndex env _ _) as [[|] w'].
  - destruct (drain_end_state
                (prefixFetchQueue
                   (mergeRemoteIndex (PrefixesIndex (fromJson data))
                                     (set_fetchingPrefixes true m)))
                (mergeRemoteIndex (PrefixesIndex (fromJson data))
                                  (set_fetchingPrefixes true m)) w')
      as (-> & -> & -> & ->).
    by rewrite Hurl, Hpath.
  - cbn. by rewrite Hurl, Hpath.
Qed.

(** A flow asked for while one is running does nothing but log a
    warning: the manager is as it was, nothing is requested, no file
    changes and no result is emitted. *)
Lemma fetchPrefixes_busy (m : VersionsManager) (w : World) :
  fetchingPrefixes m = true ->
  (fetchPrefixes env m w).1 = m
  /\ files (fetchPrefixes env m w).2 = files w
  /\ exists msg,
       trace (fetchPrefixes env m w).2 = trace w ++ [EvLog LWarning msg].
Proof.
  intros Hbusy. unfold fetchPrefixes. rewrite Hbusy.
  split; [done|]. split; [done|]. by eexists.
Qed.

(** X2.  A flow started while none is running asks for the prefixes
    index first.  If that request is answered, the only file it may change
    is the index file, which is opened and given the serialization of the
    merged index; if the file opens, the versions manifests of the queued
    prefixes are asked for in queue order, up to the first request that
    fails.  Exactly one result is emitted: success when the index was
    fetched, the index file opened, and every versions manifest was
    fetched. *)
Theorem prefix_flow_stages (m : VersionsManager) (w : World) :
  fetchingPrefixes m = false ->
  exists evs,
    (fetchPrefixes env m w).2
    = {| files :=
           (if answered env (storeUrl m +:+ "/prefixes.json")
            then saved env (indexPath m)
                   (toJson
                      (PrefixesIndex_toJsonObject
                         (PrefixesIndex
                            (fromJson
                               (replyData env (storeUrl m +:+ "/prefixes.json")))
                          ∪ index m)))
                   (files w)
            else files w);
         trace := trace w ++ evs |}
    /\ requests evs
       = (storeUrl m +:+ "/prefixes.json")
         :: (if answered env (storeUrl m +:+ "/prefixes.json")
                && canOpenWrite env (indexPath m)
             then map (versionsLocation (storeUrl m))
                      (attempted env (storeUrl m)
                         (prefixFetchQueue m
                            ++ (map_to_list
                                  (PrefixesIndex
                                     (fromJson
                                        (replyData env
                                           (storeUrl m +:+ "/prefixes.json"))))).*1))
             else [])
    /\ emitted onFetchPrefixesResult evs
       = [answered env (storeUrl m +:+ "/prefixes.json")
          && canOpenWrite env (indexPath m)
          && forallb (fun prefixId =>
                        answered env (versionsLocation (storeUrl m) prefixId))
                     (prefixFetchQueue m
                        ++ (map_to_list
                              (PrefixesIndex
                                 (fromJson
                                    (replyData env
                                       (storeUrl m +:+ "/prefixes.json"))))).*1)].
Proof.
  intros Hidle. unfold fetchPrefixes. rewrite Hidle.
  unfold makeGetRequest. cbn [storeUrl set_fetchingPrefixes].
  destruct (get env (storeUrl m +:+ "/prefixes.json")) as [err|data] eqn:Hget.
  { assert (Hno : answered env (storeUrl m +:+ "/prefixes.json") = false)
      by (unfold answered; by rewrite Hget).
    rewrite Hno.
    eexists. split; [expose_world; reflexivity|].
    by rewrite !requests_cons, !emitted_cons. }
  assert (Hyes : answered env (storeUrl m +:+ "/prefixes.json") = true)
    by (unfold answered; by rewrite Hget).
  assert (Hdata : replyData env (storeUrl m +:+ "/prefixes.json") = data)
    by (unfold replyData; by rewrite Hget).
  rewrite Hyes, Hdata. cbn [andb].
  destruct (mergeRemoteIndex_settings (PrefixesIndex (fromJson data))
              (set_fetchingPrefixes true m)) as (Hurl & Hpath & _).
  pose proof (mergeRemoteIndex_index (PrefixesIndex (fromJson data))
                (set_fetchingPrefixes true m)) as Hindex.
  pose proof (mergeRemoteIndex_queue (PrefixesIndex (fromJson data))
                (set_fetchingPrefixes true m)) as Hqueue.
  cbn [storeUrl indexPath index prefixFetchQueue set_fetchingPrefixes]
    in Hurl, Hpath, Hindex, Hqueue.
  unfold saveIndex, openWriteOnly, saved. rewrite Hpath, Hindex, Hqueue.
  destruct (canOpenWrite env (indexPath m)).
  - match goal with
    | |- context [fetchNextPrefixOrFinish env ?q ?m' ?w'] =>
        destruct (drain_trace q m' w') as (evs & -> & Hreq & Hres)
    end.
    rewrite Hurl in Hreq, Hres.
    eexists (_ :: _ :: _ :: _ :: _ :: evs). split; [|split].
    + unfold write. destruct (writeOk env (indexPath m)); expose_world;
        by rewrite ?insert_insert_eq.
    + by rewrite !requests_cons, Hreq.
    + by rewrite !emitted_cons, Hres.
  - eexists. split; [expose_world; reflexivity|].
    by rewrite !requests_cons, !emitted_cons.
Qed.

End prefix_flow.

Section prefix_flow_examples.
Import Fixtures.

Lemma prefix_flow_ends_idle_witness :
  fetchingPrefixes (fetchPrefixes env manager world).1 = false
  /\ prefixFetchQueue (fetchPrefixes env manager world).1 = [].
Proof.
  destruct (prefix_flow_ends_idle env manager world) as (Hflag & Hqueue & _);
    [reflexivity|].
  split; [exact Hflag | exact Hqueue].
Defined.

Lemma prefix_flow_stages_witness :
  exists evs,
    trace (fetchPrefixes env manager world).2 = trace world ++ evs
    /\ requests evs
       = ["http://store/prefixes.json";
          "http://store/release/versions/versions.json"]
    /\ emitted onFetchPrefixesResult evs = [true].
Proof.
  destruct (prefix_flow_stages env manager world) as (evs & Hw & Hreq & Hres);
    [reflexivity|].
  exists evs. split; [by rewrite Hw|]. split; [exact Hreq | exact Hres].
Defined.

End prefix_flow_examples.

(** ** What the prefix discovery flow keeps *)

Section prefix_flow_invariants.
Context `{!Collaborators}.
Variable env : Env.
Variable P : QString -> Prefix.t -> Prop.
Hypothesis P_merge :
  forall k versionsIndex prefix,
    P k prefix -> P k (mergeVersions versionsIndex prefix).

Lemma onPrefixVersionsReply_Forall (prefixId : QString) (data : QByteArray)
  (m : VersionsManager) :
  is_Some (prefixes m !! prefixId) \/ P prefixId Prefix.empty ->
  map_Forall P (prefixes m) ->
  map_Forall P (prefixes (onPrefixVersionsReply prefixId data m)).
Proof.
  intros Hqueued Hall. unfold onPrefixVersionsReply; cbn [prefixes set_prefixes].
  apply map_Forall_insert_2; [|done]. apply P_merge.
  destruct (prefixes m !! prefixId) as [prefix|] eqn:Hprefix; cbn.
  - by apply (Hall prefixId).
  - by destruct Hqueued as [[? ?]|?].
Qed.

Lemma drain_Forall (queue : list QString) (m : VersionsManager) (w : World) :
  (forall q, q ∈ queue -> is_Some (prefixes m !! q) \/ P q Prefix.empty) ->
  map_Forall P (prefixes m) ->
  map_Forall P (prefixes (fetchNextPrefixOrFinish env queue m w).1).
Proof.
  revert m w. induction queue as [|prefixId rest IH]; intros m w Hqueue Hall;
    [done|].
  cbn [fetchNextPrefixOrFinish]. unfold makeGetRequest.
  destruct (get env _) as [err|data]; [done|].
  apply IH.
  - intros q Hq. cbn [onPrefixVersionsReply prefixes set_prefixes
                        set_prefixFetchQueue].
    destruct (Hqueue q) as [Hknown|Hempty]; [by right | |by right].
    left. by apply lookup_insert_is_Some'; right.
  - apply (onPrefixVersionsReply_Forall prefixId data
             (set_prefixFetchQueue (fun _ => rest) m)); [|done].
    apply Hqueue. left.
Qed.

Lemma drain_is_Some (queue : list QString) (m : VersionsManager) (w : World)
  (k : QString) :
  is_Some (prefixes m !! k) ->
  is_Some (prefixes (fetchNextPrefixOrFinish env queue m w).1 !! k).
Proof.
  revert m w. induction queue as [|prefixId rest IH]; intros m w Hk; [done|].
  cbn [fetchNextPrefixOrFinish]. unfold makeGetRequest.
  destruct (get env _) as [err|data]; [done|].
  apply IH. cbn [onPrefixVersionsReply prefixes set_prefixes
                   set_prefixFetchQueue].
  by apply lookup_insert_is_Some'; right.
Qed.

Hypothesis P_new : forall id about, P id (Prefix.Prefix id about).

Lemma merge_loop_Forall (remoteIndex : gmap QString PrefixInfo.t)
  (ids : list QString) (m : VersionsManager) :
  map_Forall P (prefixes m) ->
  map_Forall P (prefixes (foldl (mergeRemotePrefix remoteIndex) m ids)).
Proof.
  revert m. induction ids as [|id ids IH]; intros m Hall; [done|].
  cbn [foldl]. apply IH. unfold mergeRemotePrefix; cbn.
  destruct (prefixes m !! id); cbn; [done|].
  by apply map_Forall_insert_2.
Qed.

Lemma fetchPrefixes_Forall (m : VersionsManager) (w : World) :
  (forall q, q ∈ prefixFetchQueue m ->
             is_Some (prefixes m !! q) \/ P q Prefix.empty) ->
  map_Forall P (prefixes m) ->
  map_Forall P (prefixes (fetchPrefixes env m w).1).
Proof.
  intros Hqueue Hall. unfold fetchPrefixes.
  destruct (fetchingPrefixes m); [done|].
  unfold makeGetRequest. destruct (get env _) as [err|data]; [done|].
  assert (Hmerged :
            map_Forall P
              (prefixes (mergeRemoteIndex (PrefixesIndex (fromJson data))
                                          (set_fetchingPrefixes true m))))
    by (by apply merge_loop_Forall).
  destruct (saveIndex env _ _) as [[|] w']; [|done].
  apply drain_Forall; [|done].
  intros q. rewrite mergeRemoteIndex_queue. cbn [prefixFetchQueue set_fetchingPrefixes].
  intros [Hq|Hq]%elem_of_app.
  - destruct (Hqueue q Hq) as [[prefix Hprefix]|Hempty]; [|by right].
    left. exists prefix. by apply merge_loop_prefixes_known.
  - left. apply (elem_of_dom (D := gset QString)).
    unfold mergeRemoteIndex. rewrite merge_loop_prefixes_dom.
    apply elem_of_union_r. by apply elem_of_list_to_set.
Qed.

End prefix_flow_invariants.

Section prefix_flow_keeps.
Context `{!Collaborators}.
Variable env : Env.

(** X3.  If every prefix has its version list in descending order before
    a prefix discovery flow, every prefix has afterwards, whatever the
    outcome of the flow. *)
Theorem prefix_flow_keeps_sorted (m : VersionsManager) (w : World) :
  map_Forall (fun _ prefix => Sorted greater_eq (Prefix.versions prefix))
             (prefixes m) ->
  map_Forall (fun _ prefix => Sorted greater_eq (Prefix.versions prefix))
             (prefixes (fetchPrefixes env m w).1).
Proof.
  apply (fetchPrefixes_Forall env
           (fun _ prefix => Sorted greater_eq (Prefix.versions prefix))).
  - intros k versionsIndex prefix Hsorted. apply mergeVersions_Sorted.
  - intros id about. constructor.
  - intros q Hq. right. constructor.
Qed.

(** X4.  If the queue is empty and every prefix object is filed under its
    own identifier before a prefix discovery flow, every prefix object is
    afterwards, the ones the flow created included. *)
Theorem prefix_flow_keeps_ids (m : VersionsManager) (w : World) :
  prefixFetchQueue m = [] ->
  map_Forall (fun k prefix => Prefix.id prefix = k) (prefixes m) ->
  map_Forall (fun k prefix => Prefix.id prefix = k)
             (prefixes (fetchPrefixes env m w).1).
Proof.
  intros Hqueue.
  apply (fetchPrefixes_Forall env (fun k prefix => Prefix.id prefix = k)).
  - by intros k versionsIndex prefix.
  - done.
  - intros q. rewrite Hqueue. by intros ?%elem_of_nil.
Qed.

(** X5.  A prefix discovery flow loses nothing it knew: a prefix known
    before is known afterwards under the same identifier and description,
    with every version identifier it had, whatever the outcome of the
    flow. *)
Theorem prefix_flow_keeps_known (m : VersionsManager) (w : World)
  (k : QString) (prefix : Prefix.t) :
  prefixes m !! k = Some prefix ->
  exists prefix',
    prefixes (fetchPrefixes env m w).1 !! k = Some prefix'
    /\ Prefix.id prefix' = Prefix.id prefix
    /\ Prefix.about prefix' = Prefix.about prefix
    /\ forall v, v ∈ Prefix.versions prefix -> v ∈ Prefix.versions prefix'.
Proof.
  intros Hk. unfold fetchPrefixes.
  destruct (fetchingPrefixes m); [by exists prefix|].
  unfold makeGetRequest. destruct (get env _) as [err|data]; [by exists prefix|].
  pose proof (merge_loop_prefixes_known (PrefixesIndex (fromJson data))
                (map_to_list (PrefixesIndex (fromJson data))).*1
                (set_fetchingPrefixes true m) k prefix Hk) as Hmerged.
  fold (mergeRemoteIndex (PrefixesIndex (fromJson data))
                         (set_fetchingPrefixes true m)) in Hmerged.
  destruct (saveIndex env _ _) as [[|] w']; [|by exists prefix].
  set (m1 := mergeRemoteIndex (PrefixesIndex (fromJson data))
                              (set_fetchingPrefixes true m)) in *.
  destruct (drain_is_Some env (prefixFetchQueue m1) m1 w' k) as [prefix' Hk'];
    [by exists prefix|].
  exists prefix'. split; [done|].
  refine (drain_Forall env
            (fun k' prefix' =>
               forall prefix0, prefixes m1 !! k' = Some prefix0 ->
                 Prefix.id prefix' = Prefix.id prefix0
                 /\ Prefix.about prefix' = Prefix.about prefix0
                 /\ forall v, v ∈ Prefix.versions prefix0 ->
                              v ∈ Prefix.versions prefix')
            _ (prefixFetchQueue m1) m1 w' _ _ k prefix' Hk' prefix Hmerged).
  - intros k' versionsIndex prefix1 Hprefix1 prefix0 Hprefix0.
    destruct (Hprefix1 prefix0 Hprefix0) as (Hid & Habout & Hversions).
    split; [done|]. split; [done|].
    intros v Hv. apply mergeVersions_elem_of. left. by apply Hversions.
  - intros q _. destruct (prefixes m1 !! q) as [prefix0|] eqn:Hq.
    + left. by exists prefix0.
    + right. by intros prefix0 ?.
  - intros k' prefix0 Hprefix0 prefix1 Hprefix1. by simplify_eq.
Qed.

End prefix_flow_keeps.

Section prefix_flow_keeps_examples.
Import Fixtures.

Lemma prefix_flow_keeps_sorted_witness :
  map_Forall (fun _ prefix => Sorted greater_eq (Prefix.versions prefix))
             (prefixes (fetchPrefixes env manager world).1).
Proof.
  apply (prefix_flow_keeps_sorted env manager world).
  apply map_Forall_singleton. constructor.
Defined.

Lemma prefix_flow_keeps_ids_witness :
  map_Forall (fun k prefix => Prefix.id prefix = k)
             (prefixes (fetchPrefixes env manager world).1).
Proof.
  apply (prefix_flow_keeps_ids env manager world); [reflexivity|].
  apply map_Forall_singleton. reflexivity.
Defined.

Lemma prefix_flow_keeps_known_witness :
  exists prefix',
    prefixes (fetchPrefixes env manager world).1 !! "release" = Some prefix'
    /\ Prefix.about prefix' = "Local builds".
Proof.
  destruct (prefix_flow_keeps_known env manager world "release"
              (Prefix.Prefix "release" "Local builds"))
    as (prefix' & Hk & _ & Habout & _); [reflexivity|].
  exists prefix'. split; [exact Hk | exact Habout].
Defined.

End prefix_flow_keeps_examples.

(** ** Merging and scanning: repetition and order *)

Section merge_order.

Lemma Prefix_eq (prefix1 prefix2 : Prefix.t) :
  Prefix.id prefix1 = Prefix.id prefix2 ->
  Prefix.about prefix1 = Prefix.about prefix2 ->
  Prefix.versions prefix1 = Prefix.versions prefix2 ->
  Prefix.latestVersionId prefix1 = Prefix.latestVersionId prefix2 ->
  prefix1 = prefix2.
Proof. destruct prefix1, prefix2; cbn; congruence. Qed.

Lemma filter_bool_none {A} (keep : A -> bool) (l : list A) :
  (forall x, x ∈ l -> keep x = false) -> List.filter keep l = [].
Proof.
  induction l as [|x l IH]; intros Hnone; [done|].
  cbn. rewrite (Hnone x) by left. apply IH. intros y Hy. apply Hnone. by right.
Qed.

Lemma filter_bool_Permutation {A} (keep : A -> bool) (l1 l2 : list A) :
  l1 ≡ₚ l2 -> List.filter keep l1 ≡ₚ List.filter keep l2.
Proof.
  induction 1 as [|x l1 l2 _ IH|x y l|l1 l2 l3 _ IH12 _ IH23]; cbn.
  - done.
  - destruct (keep x); by rewrite IH.
  - destruct (keep x), (keep y); try done. apply perm_swap.
  - by etrans.
Qed.

Lemma sort_greater_perm (l1 l2 : list QString) :
  l1 ≡ₚ l2 -> sort_greater l1 = sort_greater l2.
Proof.
  intros Hperm. apply sort_greater_unique; [apply sort_greater_Sorted|].
  by rewrite sort_greater_Permutation.
Qed.

Lemma mergeVersions_idemp (versionsIndex : PrefixVersionsIndex.t)
  (prefix : Prefix.t) :
  mergeVersions versionsIndex (mergeVersions versionsIndex prefix)
  = mergeVersions versionsIndex prefix.
Proof.
  apply Prefix_eq; try done.
  rewrite (mergeVersions_versions versionsIndex (mergeVersions _ _)).
  rewrite filter_bool_none.
  - by rewrite app_nil_r, mergeVersions_versions, sort_greater_idemp.
  - intros v Hv. apply bool_decide_eq_false. intros Hnew. apply Hnew.
    apply mergeVersions_elem_of. by right.
Qed.

Context `{!Collaborators}.

(** X6.  Handling the same versions manifest for the same prefix a second
    time changes nothing: the manager after the second reply is the
    manager after the first. *)
Theorem reply_handler_idempotent (prefixId : QString) (data : QByteArray)
  (m : VersionsManager) :
  onPrefixVersionsReply prefixId data (onPrefixVersionsReply prefixId data m)
  = onPrefixVersionsReply prefixId data m.
Proof.
  unfold onPrefixVersionsReply at 1.
  rewrite onPrefixVersionsReply_lookup. cbn [from_option id].
  rewrite mergeVersions_idemp.
  unfold onPrefixVersionsReply, set_prefixes. cbn.
  by rewrite insert_insert_eq.
Qed.

(** X7.  The merged prefix does not depend on the order in which the
    remote manifest lists its versions. *)
Theorem merge_ignores_remote_order (versionsIndex1 versionsIndex2 :
                                      PrefixVersionsIndex.t)
  (prefix : Prefix.t) :
  PrefixVersionsIndex.latest versionsIndex1
  = PrefixVersionsIndex.latest versionsIndex2 ->
  PrefixVersionsIndex.versions versionsIndex1
  ≡ₚ PrefixVersionsIndex.versions versionsIndex2 ->
  mergeVersions versionsIndex1 prefix = mergeVersions versionsIndex2 prefix.
Proof.
  intros Hlatest Hperm. apply Prefix_eq; try done.
  rewrite !mergeVersions_versions. apply sort_greater_perm.
  by rewrite (filter_bool_Permutation _ _ _ Hperm).
Qed.

(** X8.  The version list and the latest-version pointer a scan leaves do
    not depend on the order in which the prefix's directory is listed. *)
Theorem scan_ignores_listing_order (env1 env2 : Env) (prefixId : QString)
  (m : VersionsManager) (w : World) :
  entryList env1 (versionsPath m +:+ "/" +:+ prefixId)
  ≡ₚ entryList env2 (versionsPath m +:+ "/" +:+ prefixId) ->
  versionsOf (findLocalVersions env1 prefixId m w).1 prefixId
  = versionsOf (findLocalVersions env2 prefixId m w).1 prefixId
  /\ latestOf (findLocalVersions env1 prefixId m w).1 prefixId
     = latestOf (findLocalVersions env2 prefixId m w).1 prefixId.
Proof.
  intros Hperm.
  destruct (findLocalVersions_spec env1 prefixId m w)
    as (_ & _ & _ & _ & Hversions1 & Hlatest1).
  destruct (findLocalVersions_spec env2 prefixId m w)
    as (_ & _ & _ & _ & Hversions2 & Hlatest2).
  assert (Hsame : versionsOf (findLocalVersions env1 prefixId m w).1 prefixId
                  = versionsOf (findLocalVersions env2 prefixId m w).1 prefixId).
  { rewrite Hversions1, Hversions2. apply sort_greater_perm.
    unfold localVersions. by rewrite (filter_bool_Permutation _ _ _ Hperm). }
  split; [done|]. by rewrite Hlatest1, Hlatest2, Hsame.
Qed.

End merge_order.

Section merge_order_examples.
Import Fixtures.

Lemma merge_ignores_remote_order_witness :
  mergeVersions (PrefixVersionsIndex.mk "1.2" ["1.2"; "1.1"])
                (Prefix.mk "release" "" ["1.0"] "")
  = mergeVersions (PrefixVersionsIndex.mk "1.2" ["1.1"; "1.2"])
                  (Prefix.mk "release" "" ["1.0"] "").
Proof.
  apply merge_ignores_remote_order; [reflexivity|]. apply perm_swap.
Defined.

Lemma scan_ignores_listing_order_witness :
  versionsOf (findLocalVersions env "release" manager world).1 "release"
  = versionsOf (findLocalVersions envReversed "release" manager world).1
               "release".
Proof.
  refine (proj1 (scan_ignores_listing_order env envReversed "release" manager
                   world _)).
  apply perm_swap.
Defined.

End merge_order_examples.

(** ** The scan and the constructor *)

Section constructor.
Context `{!Collaborators}.
Variable env : Env.

Lemma logs_only (evs : list Event) :
  Forall (fun e => isLog e = true) evs ->
  requests evs = []
  /\ emitted onFetchPrefixesResult evs = []
  /\ emitted onFetchVersionIndexesResult evs = [].
Proof.
  induction 1 as [|e evs He _ IH]; [done|].
  rewrite requests_cons, !emitted_cons. by destruct e.
Qed.

Lemma scan_loop_logs (prefixId prefixPath : QString)
  (dirs versions : list QString) (w : World) :
  exists evs,
    (foldl (fun st versionId => scanVersionDir prefixId prefixPath versionId st)
           (versions, w) dirs).2
    = {| files := files w; trace := trace w ++ evs |}
    /\ Forall (fun e => isLog e = true) evs.
Proof.
  revert versions w. induction dirs as [|dir dirs IH]; intros versions w.
  - exists []. cbn. rewrite app_nil_r. by destruct w.
  - cbn [foldl]. unfold scanVersionDir at 2.
    destruct (readAll _ w) as [bytes|]; [|apply IH].
    destruct (bool_decide _).
    + destruct (IH versions
                   (log_warning
                      ("A version index '"
                         +:+ (prefixPath +:+ "/" +:+ dir +:+ "/" +:+ dir
                                +:+ ".json")
                         +:+ "' contains the wrong version id '"
                         +:+ VersionIndex.id
                               (VersionIndex.VersionIndex (fromJson bytes))
                         +:+ "'") w))
        as (evs & -> & Hlogs).
      eexists (_ :: evs).
      split; [cbn; by rewrite <- app_assoc | by constructor].
    + destruct (IH (versions ++ [dir])
                   (log_info ("Local version is found: '" +:+ prefixId +:+ "/"
                                +:+ dir +:+ "'") w))
        as (evs & -> & Hlogs).
      eexists (_ :: evs).
      split; [cbn; by rewrite <- app_assoc | by constructor].
Qed.

(** The scan in full: only the scanned prefix changes, and only log lines
    are added to the world. *)
Lemma findLocalVersions_result (prefixId : QString) (m : VersionsManager)
  (w : World) :
  exists evs,
    findLocalVersions env prefixId m w
    = (set_prefixes
         <[prefixId :=
             Prefix.mk
               (Prefix.id (default Prefix.empty (prefixes m !! prefixId)))
               (Prefix.about (default Prefix.empty (prefixes m !! prefixId)))
               (sort_greater (versionsOf m prefixId
                                ++ localVersions env m w prefixId))
               (if bool_decide
                     (1 < List.length
                            (sort_greater
                               (versionsOf m prefixId
                                  ++ localVersions env m w prefixId)))%nat
                then nth 1 (sort_greater
                              (versionsOf m prefixId
                                 ++ localVersions env m w prefixId)) ""
                else latestOf m prefixId)]> m,
       {| files := files w; trace := trace w ++ evs |})
    /\ Forall (fun e => isLog e = true) evs.
Proof.
  unfold findLocalVersions, versionsOf, latestOf, localVersions.
  destruct (scan_loop_logs prefixId (versionsPath m +:+ "/" +:+ prefixId)
              (entryList env (versionsPath m +:+ "/" +:+ prefixId))
              (Prefix.versions (default Prefix.empty (prefixes m !! prefixId))) w)
    as (evs & Hw & Hlogs).
  destruct (scan_loop_spec prefixId (versionsPath m +:+ "/" +:+ prefixId)
              (entryList env (versionsPath m +:+ "/" +:+ prefixId))
              (Prefix.versions (default Prefix.empty (prefixes m !! prefixId))) w)
    as (evs' & Hloop & _).
  rewrite Hloop in Hw |- *. cbn [snd] in Hw.
  exists evs. split; [|done]. by rewrite Hw.
Qed.

(** X9.  A scan adds only log lines to the world: no request, no signal
    and no change to any file.  In the manager it touches the scanned
    prefix alone: every other prefix, the index, the queue, the flags and
    the paths are as before, and the scanned identifier is a key
    afterwards even if it was not before. *)
Theorem scan_only_logs (prefixId : QString) (m : VersionsManager) (w : World) :
  exists prefix evs,
    findLocalVersions env prefixId m w
    = (set_prefixes <[prefixId := prefix]> m,
       {| files := files w; trace := trace w ++ evs |})
    /\ requests evs = []
    /\ emitted onFetchPrefixesResult evs = []
    /\ emitted onFetchVersionIndexesResult evs = []
    /\ Prefix.id prefix
       = Prefix.id (default Prefix.empty (prefixes m !! prefixId))
    /\ Prefix.about prefix
       = Prefix.about (default Prefix.empty (prefixes m !! prefixId)).
Proof.
  destruct (findLocalVersions_result prefixId m w) as (evs & -> & Hlogs).
  destruct (logs_only evs Hlogs) as (Hreq & Hres1 & Hres2).
  by eexists _, evs.
Qed.

Lemma initPrefix_result (m : VersionsManager) (w : World) (id : QString) :
  exists evs,
    initPrefix env (m, w) id
    = (set_prefixes
         (fun known =>
            if isEmpty id then known
            else <[id := scannedPrefix env m w id
                           (PrefixInfo.about
                              (default PrefixInfo.empty (index m !! id)))]>
                   known) m,
       {| files := files w; trace := trace w ++ evs |})
    /\ Forall (fun e => isLog e = true) evs.
Proof.
  unfold initPrefix. destruct (isEmpty id).
  - exists []. rewrite app_nil_r. by destruct m, w.
  - destruct (findLocalVersions_result id
                (set_prefixes
                   <[id := Prefix.Prefix id
                             (PrefixInfo.about
                                (default PrefixInfo.empty (index m !! id)))]> m)
                w) as (evs & -> & Hlogs).
    exists evs. split; [|done]. f_equal.
    unfold set_prefixes, versionsOf, latestOf, scannedPrefix. cbn.
    rewrite !lookup_insert_eq, insert_insert_eq. done.
Qed.

Lemma init_loop_result (ids : list QString) (m : VersionsManager) (w : World) :
  exists known evs,
    foldl (initPrefix env) (m, w) ids
    = (set_prefixes (fun _ => known) m,
       {| files := files w; trace := trace w ++ evs |})
    /\ Forall (fun e => isLog e = true) evs
    /\ forall k,
         known !! k
         = if decide (k ∈ ids /\ k <> "")
           then Some (scannedPrefix env m w k
                        (PrefixInfo.about
                           (default PrefixInfo.empty (index m !! k))))
           else prefixes m !! k.
Proof.
  revert m w. induction ids as [|id ids IH]; intros m w.
  - exists (prefixes m), []. rewrite app_nil_r.
    split; [by destruct m, w|]. split; [done|].
    intros k. rewrite decide_False; [done|]. by intros [?%elem_of_nil _].
  - cbn [foldl].
    destruct (initPrefix_result m w id) as (evs1 & -> & Hlogs1).
    destruct (IH (set_prefixes
                    (fun known =>
                       if isEmpty id then known
                       else <[id := scannedPrefix env m w id
                                      (PrefixInfo.about
                                         (default PrefixInfo.empty
                                                  (index m !! id)))]>
                              known) m)
                 {| files := files w; trace := trace w ++ evs1 |})
      as (known & evs2 & -> & Hlogs2 & Hknown).
    exists known, (evs1 ++ evs2).
    split; [cbn; by rewrite app_assoc|].
    split; [by apply Forall_app|].
    intros k. rewrite Hknown. cbn [prefixes index set_prefixes].
    change (scannedPrefix env (set_prefixes _ m) _ k)
      with (scannedPrefix env m w k).
    destruct (decide (k ∈ ids /\ k <> "")) as [[Hin Hne]|Hout].
    + rewrite decide_True; [done|]. split; [by right | done].
    + unfold isEmpty. destruct (decide (id = "")) as [->|Hid].
      * rewrite bool_decide_eq_true_2 by done.
        rewrite decide_False; [done|].
        intros [[->|Hin]%elem_of_cons Hne]; [done|]. by apply Hout.
      * rewrite bool_decide_eq_false_2 by done.
        destruct (decide (k = id)) as [->|Hk].
        -- rewrite lookup_insert_eq, decide_True; [done|].
           split; [left | done].
        -- rewrite lookup_insert_ne by done.
           rewrite decide_False; [done|].
           intros [[->|Hin]%elem_of_cons Hne]; [done|]. by apply Hout.
Qed.

(** C6.  The discovery scan as the program runs it, a fresh [Prefix]
    inserted for the identifier and then scanned, is idempotent: run a
    second time for the same prefix over the tree the first run left, it
    leaves the same manager, hence the same sorted version list.  The run
    changes no file, and for a non-empty identifier the list is the
    accepted version directories of the prefix in descending order. *)
Theorem discovery_scan_idempotent (m : VersionsManager) (w : World)
  (id : QString) :
  (initPrefix env (initPrefix env (m, w) id) id).1 = (initPrefix env (m, w) id).1
  /\ versionsOf (initPrefix env (initPrefix env (m, w) id) id).1 id
     = versionsOf (initPrefix env (m, w) id).1 id
  /\ files (initPrefix env (m, w) id).2 = files w
  /\ (isEmpty id = false ->
      versionsOf (initPrefix env (m, w) id).1 id
      = sort_greater (localVersions env m w id)).
Proof.
  destruct (initPrefix_result m w id) as (evs1 & Hfirst & _).
  assert (Hsame : (initPrefix env (initPrefix env (m, w) id) id).1
                  = (initPrefix env (m, w) id).1).
  { rewrite Hfirst.
    destruct (initPrefix_result
                (set_prefixes
                   (fun known =>
                      if isEmpty id then known
                      else <[id := scannedPrefix env m w id
                                     (PrefixInfo.about
                                        (default PrefixInfo.empty
                                                 (index m !! id)))]>
                             known) m)
                {| files := files w; trace := trace w ++ evs1 |} id)
      as (evs2 & -> & _).
    cbn [fst]. unfold set_prefixes. cbn. f_equal.
    destruct (isEmpty id); [done|].
    change (scannedPrefix env _ _ id) with (scannedPrefix env m w id).
    by rewrite insert_insert_eq. }
  split; [done|]. split; [by rewrite Hsame|].
  rewrite Hfirst. split; [done|].
  intros Hid. rewrite Hid. unfold versionsOf. cbn.
  by rewrite lookup_insert_eq.
Qed.

(** X10.  The constructor leaves a manager with the given store URL, the
    paths derived from the data location, the index read from
    prefixes.json (empty when the file cannot be read), no flow running
    and an empty queue.  Its prefixes are exactly the non-empty
    identifiers of that index, each with the index's description and the
    descending list of its accepted version directories.  It changes no
    file, requests nothing and emits no result. *)
Theorem constructor_catalog (dirName url : QString) (w : World) :
  exists known evs,
    VersionsManager_new env dirName url w
    = (mkVersionsManager url
         (genericDataLocation env +:+ "/" +:+ dirName)
         ((genericDataLocation env +:+ "/" +:+ dirName) +:+ "/" +:+ "versions")
         (((genericDataLocation env +:+ "/" +:+ dirName) +:+ "/" +:+ "versions")
            +:+ "/" +:+ "prefixes.json")
         (storedIndex
            (((genericDataLocation env +:+ "/" +:+ dirName) +:+ "/"
                +:+ "versions") +:+ "/" +:+ "prefixes.json") w)
         known [] false false,
       {| files := files w; trace := trace w ++ evs |})
    /\ requests evs = []
    /\ emitted onFetchPrefixesResult evs = []
    /\ emitted onFetchVersionIndexesResult evs = []
    /\ forall id,
         known !! id
         = match storedIndex
                   (((genericDataLocation env +:+ "/" +:+ dirName) +:+ "/"
                       +:+ "versions") +:+ "/" +:+ "prefixes.json") w !! id with
           | Some info =>
               if isEmpty id then None
               else Some (scannedPrefix env
                            (VersionsManager_new env dirName url w).1 w id
                            (PrefixInfo.about info))
           | None => None
           end.
Proof.
  unfold VersionsManager_new, storedIndex.
  set (dataPath := genericDataLocation env +:+ "/" +:+ dirName).
  set (versionsPath := dataPath +:+ "/" +:+ "versions").
  set (indexPath := versionsPath +:+ "/" +:+ "prefixes.json").
  assert (Hread : readAll indexPath (mkpath versionsPath w) = readAll indexPath w)
    by done.
  rewrite Hread.
  set (stored := match readAll indexPath w with
                 | Some bytes => PrefixesIndex (fromJson bytes)
                 | None => ∅
                 end).
  set (w0 := match readAll indexPath w with
             | Some _ => mkpath versionsPath w
             | None => log_info "Default version index have been created"
                                (mkpath versionsPath w)
             end).
  assert (Hpair :
            match readAll indexPath w with
            | Some bytes => (PrefixesIndex (fromJson bytes), mkpath versionsPath w)
            | None => (∅, log_info "Default version index have been created"
                                   (mkpath versionsPath w))
            end = (stored, w0))
    by (unfold stored, w0; by destruct (readAll indexPath w)).
  rewrite Hpair.
  assert (Hw0 : exists evs0,
             w0 = {| files := files w; trace := trace w ++ evs0 |}
             /\ requests evs0 = []
             /\ emitted onFetchPrefixesResult evs0 = []
             /\ emitted onFetchVersionIndexesResult evs0 = []).
  { unfold w0. destruct (readAll indexPath w).
    - exists [EvMkpath versionsPath].
      split; [reflexivity | cbn; repeat split; reflexivity].
    - exists [EvMkpath versionsPath;
              EvLog LInfo "Default version index have been created"].
      split; [|cbn; repeat split; reflexivity].
      unfold log_info, mkpath, emit. cbn. by rewrite <- app_assoc. }
  destruct Hw0 as (evs0 & Hw0 & Hreq0 & Hres0 & Hres0').
  clearbody w0. subst w0. clear Hpair Hread.
  destruct (init_loop_result (map_to_list stored).*1
              (mkVersionsManager url dataPath versionsPath indexPath stored ∅ []
                                 false false)
              {| files := files w; trace := trace w ++ evs0 |})
    as (known & evs1 & Hloop & Hlogs & Hknown).
  rewrite Hloop. cbn [set_prefixes storeUrl Versions.dataPath
                        Versions.versionsPath Versions.indexPath index prefixes
                        prefixFetchQueue fetchingPrefixes
                        fetchingVersionIndexes fst].
  destruct (logs_only evs1 Hlogs) as (Hreq1 & Hres1 & Hres1').
  exists known, (evs0 ++ evs1 ++ [EvLog LInfo ("Initialized with "
                                                 +:+ pretty (size stored)
                                                 +:+ " prefix(es)")]).
  split; [|split; [|split; [|split]]].
  - unfold log_info, emit. cbn. by rewrite <- !app_assoc.
  - by rewrite !requests_app, Hreq0, Hreq1.
  - by rewrite !emitted_app, Hres0, Hres1.
  - by rewrite !emitted_app, Hres0', Hres1'.
  - intros id. rewrite Hknown. cbn [index prefixes].
    rewrite lookup_empty.
    assert (Hscan : forall about,
               scannedPrefix env
                 (mkVersionsManager url dataPath versionsPath indexPath stored
                                    ∅ [] false false)
                 {| files := files w; trace := trace w ++ evs0 |} id about
               = scannedPrefix env
                   (set_prefixes (fun _ => known)
                      (mkVersionsManager url dataPath versionsPath indexPath
                                         stored ∅ [] false false))
                   w id about)
      by reflexivity.
    destruct (stored !! id) as [info|] eqn:Hid.
    + unfold isEmpty. destruct (decide (id = "")) as [->|Hne].
      * rewrite bool_decide_eq_true_2 by done.
        rewrite decide_False; [done|]. by intros [_ ?].
      * rewrite bool_decide_eq_false_2 by done.
        rewrite decide_True.
        { rewrite Hscan. do 3 f_equal.
          exact (f_equal (default PrefixInfo.empty) Hid). }
        split; [|done]. apply elem_of_keys. by exists info.
    + rewrite decide_False; [done|].
      intros [[info Hinfo]%elem_of_keys _]. congruence.
Qed.

End constructor.

(** ** The per-version index flow: manager and files *)

Section version_flow_state.
Context `{!Collaborators}.
Variable env : Env.
Variable version : FullVersionId.t.

Lemma append_assoc (s1 s2 s3 : string) : (s1 +:+ s2) +:+ s3 = s1 +:+ (s2 +:+ s3).
Proof.
  induction s1 as [|c s1 IH]; [done|]. by rewrite !append_String, IH.
Qed.

(** The assembler reads the data descriptor where the flow stores it. *)
Lemma data_index_paths_agree (m : VersionsManager) :
  versionsPath m +:+ "/" +:+ FullVersionId.toString version +:+ "/data.json"
  = dataIndexLocation (versionsPath m) version.
Proof.
  unfold dataIndexLocation, FullVersionId.toString.
  by rewrite !append_assoc.
Qed.

Lemma fetchVersionDataIndex_state (m : VersionsManager) (w : World) :
  (fetchVersionDataIndex env version m w).1
  = set_fetchingVersionIndexes false m
  /\ (stageOk env (dataIndexLocation (storeUrl m) version)
              (dataIndexLocation (versionsPath m) version) = true ->
      writeOk env (dataIndexLocation (versionsPath m) version) = true ->
      files (fetchVersionDataIndex env version m w).2
        !! dataIndexLocation (versionsPath m) version
      = Some (replyData env (dataIndexLocation (storeUrl m) version))).
Proof.
  unfold fetchVersionDataIndex, makeGetRequest, stageOk, replyData,
    openWriteOnly, write.
  destruct (get env _) as [err|data]; [done|].
  destruct (canOpenWrite env _); [|done].
  destruct (writeOk env _); cbn; [|done].
  split; [done|]. intros _ _. by rewrite lookup_insert_eq.
Qed.

Lemma fetchVersionAssetsIndex_state (assets : QString) (m : VersionsManager)
  (w : World) :
  (fetchVersionAssetsIndex env version assets m w).1
  = set_fetchingVersionIndexes false m
  /\ (isEmpty assets = false ->
      stageOk env (assetsIndexLocation (storeUrl m) assets)
              (assetsIndexLocation (dataPath m) assets) = true ->
      exists w1,
        fetchVersionAssetsIndex env version assets m w
        = fetchVersionDataIndex env version m w1).
Proof.
  unfold fetchVersionAssetsIndex.
  destruct (isEmpty assets); [done|].
  unfold makeGetRequest, stageOk, openWriteOnly.
  destruct (get env _) as [err|data]; [done|].
  destruct (canOpenWrite env _); [|done]. cbn [negb].
  match goal with
  | |- context [fetchVersionDataIndex env version m ?w1] =>
      destruct (fetchVersionDataIndex_state m w1) as (Hm & _)
  end.
  split; [done|]. intros _ _. by eexists.
Qed.

Lemma fetchVersionMainIndex_state (m : VersionsManager) (w : World) :
  (fetchVersionMainIndex env version m w).1
  = set_fetchingVersionIndexes false m
  /\ (stageOk env (versionIndexLocation (storeUrl m) version)
              (versionIndexLocation (versionsPath m) version) = true ->
      exists w1,
        fetchVersionMainIndex env version m w
        = fetchVersionAssetsIndex env version (remoteAssets env m version) m w1).
Proof.
  unfold fetchVersionMainIndex, remoteAssets.
  unfold makeGetRequest, stageOk, replyData, openWriteOnly.
  destruct (get env _) as [err|data]; [done|].
  destruct (canOpenWrite env _); [|done]. cbn [negb].
  match goal with
  | |- context [fetchVersionAssetsIndex env version ?a m ?w1] =>
      destruct (fetchVersionAssetsIndex_state a m w1) as (Hm & _)
  end.
  split; [done|]. intros _. by eexists.
Qed.

(** Brings the trace of a finished branch to the form [trace w ++ evs] and
    reads the paths opened or written off [evs]. *)
Ltac read_touched :=
  unfold write;
  repeat match goal with
         | |- context [writeOk env ?path] => destruct (writeOk env path)
         end;
  simpl; rewrite <- ?app_assoc; simpl;
  eexists; (split; [reflexivity|]); cbn; repeat constructor; auto.

Lemma touched_cons (e : Event) (tr : list Event) :
  touched (e :: tr)
  = match e with
    | EvOpen path _ | EvWrite path _ => path :: touched tr
    | _ => touched tr
    end.
Proof. by destruct e. Qed.

Lemma fetchVersionDataIndex_touched (m : VersionsManager) (w : World) :
  exists evs,
    trace (fetchVersionDataIndex env version m w).2 = trace w ++ evs
    /\ Forall (fun path => path = dataIndexLocation (versionsPath m) version)
              (touched evs).
Proof.
  unfold fetchVersionDataIndex, makeGetRequest, openWriteOnly.
  destruct (get env _) as [err|data]; [read_touched|].
  destruct (canOpenWrite env _); read_touched.
Qed.

Lemma fetchVersionAssetsIndex_touched (assets : QString) (m : VersionsManager)
  (w : World) :
  exists evs,
    trace (fetchVersionAssetsIndex env version assets m w).2 = trace w ++ evs
    /\ Forall (fun path =>
                 path = assetsIndexLocation (dataPath m) assets
                 \/ path = dataIndexLocation (versionsPath m) version)
              (touched evs).
Proof.
  unfold fetchVersionAssetsIndex.
  destruct (isEmpty assets); [read_touched|].
  unfold makeGetRequest, openWriteOnly.
  destruct (get env _) as [err|data]; [read_touched|].
  destruct (canOpenWrite env _); [|read_touched].
  cbn [negb].
  match goal with
  | |- context [fetchVersionDataIndex env version m ?w'] =>
      destruct (fetchVersionDataIndex_touched m w') as (evs & Htr & Hpaths);
      rewrite Htr; clear Htr
  end.
  rewrite trace_write. simpl. rewrite <- !app_assoc. simpl.
  eexists; split; [reflexivity|].
  rewrite !touched_cons. do 2 (constructor; [by left|]).
  eapply Forall_impl; [exact Hpaths|]. intros path ->. by right.
Qed.

Lemma fetchVersionMainIndex_touched (m : VersionsManager) (w : World) :
  exists evs,
    trace (fetchVersionMainIndex env version m w).2 = trace w ++ evs
    /\ Forall (fun path =>
                 path = versionIndexLocation (versionsPath m) version
                 \/ path = assetsIndexLocation (dataPath m)
                                               (remoteAssets env m version)
                 \/ path = dataIndexLocation (versionsPath m) version)
              (touched evs).
Proof.
  unfold fetchVersionMainIndex, remoteAssets, replyData.
  unfold makeGetRequest, openWriteOnly.
  destruct (get env _) as [err|data]; [read_touched|].
  destruct (canOpenWrite env _); [|read_touched].
  cbn [negb].
  match goal with
  | |- context [fetchVersionAssetsIndex env version ?a m ?w'] =>
      destruct (fetchVersionAssetsIndex_touched a m w') as (evs & Htr & Hpaths);
      rewrite Htr; clear Htr
  end.
  rewrite trace_write. simpl. rewrite <- !app_assoc. simpl.
  eexists; split; [reflexivity|].
  rewrite !touched_cons. do 2 (constructor; [by left|]).
  eapply Forall_impl; [exact Hpaths|]. intros path [->| ->]; auto.
Qed.

(** X11.  The per-version flow never changes the manager: whether it is
    refused, fails at some stage or succeeds, the manager it leaves is the
    one it was given, with the in-flight flag as it was. *)
Theorem version_flow_keeps_manager (m : VersionsManager) (w : World) :
  (fetchVersionIndexes env version m w).1 = m.
Proof.
  unfold fetchVersionIndexes.
  destruct (fetchingVersionIndexes m) eqn:Hidle; [done|].
  destruct (fetchVersionMainIndex_state (set_fetchingVersionIndexes true m)
              (log_info ("Fetching actual indexes for the '"
                           +:+ FullVersionId.toString version +:+ "'...") w))
    as (-> & _).
  destruct m; cbn in *. by subst.
Qed.

(** X12.  Whatever the replies and the file system do, the per-version
    flow opens for writing and writes through three paths only: the one it
    builds for the version descriptor, the one it builds for the assets
    descriptor named by the fetched version descriptor, and the one it
    builds for the data descriptor. *)
Theorem version_flow_opens_three_paths (m : VersionsManager) (w : World) :
  exists evs,
    trace (fetchVersionIndexes env version m w).2 = trace w ++ evs
    /\ Forall (fun path =>
                 path = versionIndexLocation (versionsPath m) version
                 \/ path = assetsIndexLocation (dataPath m)
                                               (remoteAssets env m version)
                 \/ path = dataIndexLocation (versionsPath m) version)
              (touched evs).
Proof.
  unfold fetchVersionIndexes.
  destruct (fetchingVersionIndexes m).
  { simpl. eexists; split; [reflexivity|]. constructor. }
  match goal with
  | |- context [fetchVersionMainIndex env version ?m' ?w'] =>
      destruct (fetchVersionMainIndex_touched m' w') as (evs & Htr & Hpaths);
      rewrite Htr; clear Htr
  end.
  simpl. rewrite <- !app_assoc. simpl.
  eexists; split; [reflexivity|]. by rewrite touched_cons.
Qed.

(** X13.  When all three stages of the flow get through and the write of
    the data descriptor lands, the data descriptor the assembler then
    loads is the one parsed from the fetched bytes: the flow writes it
    last, and the assembler reads it through the path it was written
    through. *)
Theorem version_flow_saves_data_descriptor (m : VersionsManager) (w : World) :
  fetchingVersionIndexes m = false ->
  stageOk env (versionIndexLocation (storeUrl m) version)
          (versionIndexLocation (versionsPath m) version) = true ->
  isEmpty (remoteAssets env m version) = false ->
  stageOk env (assetsIndexLocation (storeUrl m) (remoteAssets env m version))
          (assetsIndexLocation (dataPath m) (remoteAssets env m version))
  = true ->
  stageOk env (dataIndexLocation (storeUrl m) version)
          (dataIndexLocation (versionsPath m) version) = true ->
  writeOk env (dataIndexLocation (versionsPath m) version) = true ->
  localDataIndex m version (fetchVersionIndexes env version m w).2
  = DataIndex (fromJson (replyData env (dataIndexLocation (storeUrl m) version))).
Proof.
  intros Hidle Hstage1 Hassets Hstage2 Hstage3 Hwrite3.
  unfold fetchVersionIndexes. rewrite Hidle.
  destruct (fetchVersionMainIndex_state (set_fetchingVersionIndexes true m)
              (log_info ("Fetching actual indexes for the '"
                           +:+ FullVersionId.toString version +:+ "'...") w))
    as (_ & Hmain).
  destruct (Hmain Hstage1) as (w1 & ->).
  destruct (fetchVersionAssetsIndex_state
              (remoteAssets env (set_fetchingVersionIndexes true m) version)
              (set_fetchingVersionIndexes true m) w1) as (_ & Hnext).
  destruct (Hnext Hassets Hstage2) as (w2 & ->).
  destruct (fetchVersionDataIndex_state (set_fetchingVersionIndexes true m) w2)
    as (_ & Hsaved).
  cbn [storeUrl versionsPath dataPath set_fetchingVersionIndexes] in *.
  unfold localDataIndex, loadIndex, readAll.
  by rewrite data_index_paths_agree, (Hsaved Hstage3 Hwrite3).
Qed.

End version_flow_state.

Section version_flow_state_examples.
Import Fixtures.

Lemma version_flow_saves_data_descriptor_witness :
  localDataIndex manager release_1_0
                 (fetchVersionIndexes env release_1_0 manager world).2
  = DataIndex (fromJson (bytes "data-1.0")).
Proof.
  refine (version_flow_saves_data_descriptor env release_1_0 manager world
            _ _ _ _ _ _);
    reflexivity.
Defined.

End version_flow_state_examples.

(** ** Assembly: what it leaves behind *)

Section fill_version_files_effects.
Context `{!Collaborators}.
Variable m : VersionsManager.
Variable version : FullVersionId.t.

Lemma warnings_cons (e : Event) (tr : list Event) :
  warnings (e :: tr)
  = match e with
    | EvLog LWarning msg => msg :: warnings tr
    | _ => warnings tr
    end.
Proof. destruct e as [[| |] msg| | | | |]; done. Qed.

Lemma library_loop_world (dataIndex : DataIndex.t) (libs : list LibraryInfo.t)
  (acc : list FileInfo.t) (w : World) :
  exists evs,
    (foldl (addLibrary m dataIndex) (acc, w) libs).2
    = {| files := files w; trace := trace w ++ evs |}
    /\ Forall (fun e => isLog e = true) evs
    /\ warnings evs = omap (missingLibraryWarning dataIndex) libs.
Proof.
  revert acc w. induction libs as [|libInfo libs IH]; intros acc w.
  - exists []. cbn. rewrite app_nil_r. by destruct w.
  - cbn [foldl].
    change (omap (missingLibraryWarning dataIndex) (libInfo :: libs))
      with (match missingLibraryWarning dataIndex libInfo with
            | Some msg => msg :: omap (missingLibraryWarning dataIndex) libs
            | None => omap (missingLibraryWarning dataIndex) libs
            end).
    set (rest := omap (missingLibraryWarning dataIndex) libs) in *.
    unfold addLibrary at 2, missingLibraryWarning.
    destruct (isLibraryAllowed libInfo); cbn [negb]; [|apply IH].
    destruct (DataIndex.libs dataIndex !! getLibraryPath libInfo); [apply IH|].
    destruct (IH acc (log_warning ("Library '" +:+ getLibraryPath libInfo
                                     +:+ "' is missing in the data index") w))
      as (evs & -> & Hlogs & Hwarn).
    eexists (_ :: evs). split; [|split].
    + cbn. by rewrite <- app_assoc.
    + by constructor.
    + by rewrite warnings_cons, Hwarn.
Qed.

(** Closes the equation of two worlds that differ in how their trace is
    bracketed. *)
Ltac same_world :=
  unfold log_info, log_warning, log_error, emit; cbn [files trace];
  rewrite <- ?app_assoc; reflexivity.

(** Assembly in full: the flag, the list and the world it leaves. *)
Lemma fillVersionFiles_result (files0 : list FileInfo.t) (w : World) :
  exists evs,
    fillVersionFiles m version files0 w
    = (DataIndex_isValid (localDataIndex m version w)
       && VersionIndex_isValid (localVersionIndex m version w)
       && AssetsIndex_isValid (localAssetsIndex m version w),
       files0
         ++ (if DataIndex_isValid (localDataIndex m version w)
             then jarFile m version (localDataIndex m version w)
                  :: auxFiles m version (localDataIndex m version w)
                  ++ (if VersionIndex_isValid (localVersionIndex m version w)
                      then libFiles m (localDataIndex m version w)
                                    (localVersionIndex m version w)
                           ++ (if AssetsIndex_isValid
                                    (localAssetsIndex m version w)
                               then assetFiles m (localAssetsIndex m version w)
                               else [])
                      else [])
             else []),
       {| files := files w; trace := trace w ++ evs |})
    /\ Forall (fun e => isLog e = true) evs
    /\ (DataIndex_isValid (localDataIndex m version w) = true ->
        VersionIndex_isValid (localVersionIndex m version w) = true ->
        warnings evs
        = omap (missingLibraryWarning (localDataIndex m version w))
               (VersionIndex.libraries (localVersionIndex m version w))).
Proof.
  unfold fillVersionFiles, localAssetsIndex, localVersionIndex, localDataIndex.
  rewrite !(loadIndex_files _ _ w
              (log_info ("Collecting files for the version '"
                           +:+ FullVersionId.toString version +:+ "'...") w))
    by done.
  destruct (DataIndex_isValid _); cbn [negb andb].
  2:{ eexists [_; _]. split.
      { f_equal; [by rewrite app_nil_r | same_world]. }
      split; [by repeat constructor | done]. }
  rewrite foldl_append_map.
  destruct (VersionIndex_isValid _); cbn [negb andb].
  2:{ eexists [_; _]. split.
      { f_equal; [|same_world].
        f_equal. unfold auxFiles.
        rewrite <- list_fmap_compose, <- !app_assoc, app_nil_r. done. }
      split; [by repeat constructor | done]. }
  match goal with
  | |- context [foldl (addLibrary m ?d) (?acc, ?w') ?libs] =>
      destruct (library_loop_spec m d libs acc w') as [Hfiles _];
      destruct (library_loop_world d libs acc w') as (evs & Hworld & Hlogs & Hwarn);
      destruct (foldl (addLibrary m d) (acc, w') libs) as [files1 w1]
  end.
  cbn [fst snd] in Hfiles, Hworld. subst files1 w1.
  rewrite (loadIndex_files _ _ w) by done.
  destruct (AssetsIndex_isValid _); cbn [negb].
  - rewrite foldl_append_map.
    eexists (_ :: evs ++ [_]). split; [|split].
    + f_equal; [|same_world].
      f_equal. unfold auxFiles, libFiles, assetFiles.
      rewrite <- !list_fmap_compose, <- !app_assoc. done.
    + constructor; [done|]. apply Forall_app. split; [done|]. by repeat constructor.
    + intros _ _. rewrite warnings_cons, warnings_app, Hwarn. cbn.
      by rewrite app_nil_r.
  - eexists (_ :: evs ++ [_]). split; [|split].
    + f_equal; [|same_world].
      f_equal. unfold auxFiles, libFiles.
      rewrite <- !list_fmap_compose, <- !app_assoc, app_nil_r. done.
    + constructor; [done|]. apply Forall_app. split; [done|]. by repeat constructor.
    + intros _ _. rewrite warnings_cons, warnings_app, Hwarn. cbn.
      by rewrite app_nil_r.
Qed.

(** X14.  Assembly reads and logs only: it changes no file, requests
    nothing and emits no result.  When it fails, the caller's list is not
    restored: it keeps what was appended before the descriptor that
    failed to load (nothing for the data descriptor, the main artifact
    and the auxiliary files for the version descriptor, the libraries as
    well for the assets descriptor). *)
Theorem assembly_reads_only (files0 : list FileInfo.t) (w : World) :
  exists evs,
    (fillVersionFiles m version files0 w).2
    = {| files := files w; trace := trace w ++ evs |}
    /\ requests evs = []
    /\ emitted onFetchPrefixesResult evs = []
    /\ emitted onFetchVersionIndexesResult evs = []
    /\ (fillVersionFiles m version files0 w).1.2
       = files0
           ++ (if DataIndex_isValid (localDataIndex m version w)
               then jarFile m version (localDataIndex m version w)
                    :: auxFiles m version (localDataIndex m version w)
                    ++ (if VersionIndex_isValid (localVersionIndex m version w)
                        then libFiles m (localDataIndex m version w)
                                      (localVersionIndex m version w)
                             ++ (if AssetsIndex_isValid
                                      (localAssetsIndex m version w)
                                 then assetFiles m
                                        (localAssetsIndex m version w)
                                 else [])
                        else [])
               else []).
Proof.
  destruct (fillVersionFiles_result files0 w) as (evs & -> & Hlogs & _).
  destruct (logs_only evs Hlogs) as (Hreq & Hres1 & Hres2).
  by exists evs.
Qed.

(** X15.  A library that is allowed on the platform but whose storage
    path the data descriptor does not list is reported by a warning naming
    the path, and assembly goes on: its outcome is that of the three
    descriptors alone. *)
Theorem missing_library_warned (files0 : list FileInfo.t) (w : World)
  (libInfo : LibraryInfo.t) :
  DataIndex_isValid (localDataIndex m version w) = true ->
  VersionIndex_isValid (localVersionIndex m version w) = true ->
  libInfo ∈ VersionIndex.libraries (localVersionIndex m version w) ->
  isLibraryAllowed libInfo = true ->
  DataIndex.libs (localDataIndex m version w) !! getLibraryPath libInfo = None ->
  (exists evs,
      trace (fillVersionFiles m version files0 w).2 = trace w ++ evs
      /\ ("Library '" +:+ getLibraryPath libInfo
            +:+ "' is missing in the data index") ∈ warnings evs)
  /\ (fillVersionFiles m version files0 w).1.1
     = AssetsIndex_isValid (localAssetsIndex m version w).
Proof.
  intros Hdata Hversion Hin Hallowed Hmissing.
  destruct (fillVersionFiles_result files0 w) as (evs & -> & _ & Hwarn).
  rewrite Hdata, Hversion. split; [|done].
  exists evs. split; [done|].
  rewrite (Hwarn Hdata Hversion). apply list_elem_of_omap.
  exists libInfo. split; [done|].
  unfold missingLibraryWarning. by rewrite Hallowed, Hmissing.
Qed.

End fill_version_files_effects.

Section fill_version_files_effects_examples.
Import MoreFixtures.

Lemma missing_library_warned_witness :
  exists evs,
    trace (fillVersionFiles Fixtures.manager Fixtures.release_1_0 [] world).2
    = trace world ++ evs
    /\ "Library 'org/lib.jar' is missing in the data index" ∈ warnings evs.
Proof.
  refine (proj1 (missing_library_warned Fixtures.manager Fixtures.release_1_0
                   [] world
                   (LibraryInfo.LibraryInfo [("name", JString "org/lib.jar")])
                   _ _ _ _ _)).
  - reflexivity.
  - reflexivity.
  - vm_compute. apply list_elem_of_here.
  - reflexivity.
  - by vm_compute.
Defined.

End fill_version_files_effects_examples.

(** ** The scan: which versions it reports *)

Section scan_reports.
Context `{!Collaborators}.
Variable env : Env.
Variable prefixId : QString.

(** X16.  After a scan the prefix's version list holds the identifiers it
    held before and, of the listed version directories, exactly those
    whose descriptor can be read and carries the directory's name as its
    id. *)
Theorem scan_reports_consistent_versions (m : VersionsManager) (w : World)
  (v : QString) :
  v ∈ versionsOf (findLocalVersions env prefixId m w).1 prefixId
  <-> v ∈ versionsOf m prefixId
      \/ (v ∈ entryList env (versionsPath m +:+ "/" +:+ prefixId)
          /\ exists data,
               readAll ((versionsPath m +:+ "/" +:+ prefixId) +:+ "/" +:+ v
                          +:+ "/" +:+ v +:+ ".json") w
               = Some data
               /\ VersionIndex.id (VersionIndex.VersionIndex (fromJson data))
                  = v).
Proof.
  destruct (findLocalVersions_spec env prefixId m w)
    as (_ & _ & _ & _ & -> & _).
  rewrite sort_greater_elem_of, elem_of_app. unfold localVersions.
  rewrite elem_of_filter_bool. unfold accepted.
  split; (intros [Hold|[Hlisted Hok]]; [by left | right; split; [done|]]).
  - destruct (readAll _ w) as [data|]; [|done].
    exists data. split; [done|]. by apply bool_decide_eq_true in Hok.
  - destruct Hok as (data & -> & Hid). by apply bool_decide_eq_true.
Qed.

(** X17.  Scanning a prefix that has no version yet, over a listing
    without repeated names, leaves a version list without duplicates. *)
Theorem scan_versions_distinct (m : VersionsManager) (w : World) :
  versionsOf m prefixId = [] ->
  NoDup (entryList env (versionsPath m +:+ "/" +:+ prefixId)) ->
  NoDup (versionsOf (findLocalVersions env prefixId m w).1 prefixId).
Proof.
  intros Hempty Hlisting.
  destruct (findLocalVersions_spec env prefixId m w)
    as (_ & _ & _ & _ & -> & _).
  rewrite Hempty. cbn [app]. apply sort_greater_NoDup.
  unfold localVersions. by apply NoDup_filter_bool.
Qed.

End scan_reports.

Section scan_reports_examples.
Import Fixtures.

Lemma scan_versions_distinct_witness :
  NoDup (versionsOf (findLocalVersions env "release" manager world).1 "release").
Proof.
  apply scan_versions_distinct; [reflexivity|].
  apply (bool_decide_unpack _). by vm_compute.
Defined.

End scan_reports_examples.

(** ** The version descriptor: further facts *)

Section descriptor_facts.

Lemma append_nonempty_r (s1 s2 : string) : s2 <> "" -> s1 +:+ s2 <> "".
Proof. intros Hne. destruct s1; [done|]. by rewrite append_String. Qed.

(** X18.  A descriptor that has the [assetIndex] key never parses to an
    empty assets-index reference, whatever that key holds: the reference
    always contains the separator between hash and identifier. *)
Theorem modern_reference_never_empty (jObject : QJsonObject) :
  contains jObject "assetIndex" = true ->
  isEmpty (VersionIndex.assetsIndex (VersionIndex.VersionIndex jObject)) = false.
Proof.
  intros Hmodern. unfold VersionIndex.VersionIndex.
  cbn [VersionIndex.assetsIndex]. rewrite Hmodern.
  apply bool_decide_eq_false. apply append_nonempty_r.
  intros Heq. by apply append_nonempty_r in Heq.
Qed.

Lemma modern_reference_never_empty_witness :
  isEmpty (VersionIndex.assetsIndex
             (VersionIndex.VersionIndex [("assetIndex", JNull)]))
  = false.
Proof. apply modern_reference_never_empty. reflexivity. Defined.

Lemma concat_cons (sep piece : string) (pieces : list string) :
  pieces <> [] ->
  String.concat sep (piece :: pieces)
  = piece +:+ sep +:+ String.concat sep pieces.
Proof. by destruct pieces. Qed.

(** Joining the pieces of a split with the separator gives the string
    back. *)
Lemma concat_split (sep : ascii) (s : QString) :
  String.concat (String sep "") (split sep s) = s.
Proof.
  induction s as [|c s IH]; [done|]. cbn [split].
  destruct (Ascii.eqb c sep) eqn:Hc.
  - apply Ascii.eqb_eq in Hc as ->.
    rewrite concat_cons by apply split_nonempty. by rewrite IH.
  - pose proof (split_nonempty sep s) as Hne.
    destruct (split sep s) as [|piece pieces]; [done|].
    destruct pieces as [|piece' pieces].
    + cbn in IH |- *. by rewrite IH.
    + rewrite concat_cons in IH |- * by done.
      by rewrite append_String, IH.
Qed.

Lemma split_spaceFree (s : QString) :
  Forall (fun piece => spaceFree piece = true) (split " " s).
Proof.
  induction s as [|c s IH]; [by repeat constructor|]. cbn [split].
  destruct (Ascii.eqb c " ") eqn:Hc; [by constructor|].
  destruct (split " " s) as [|piece pieces]; [by repeat constructor; cbn; rewrite Hc|].
  apply Forall_cons in IH as [Hpiece Hpieces].
  constructor; [|done]. cbn. by rewrite Hc.
Qed.

(** X19.  For a descriptor without the [arguments] key, the game
    arguments are the pieces of [minecraftArguments] between single
    spaces: there is at least one, none contains a space, and joining
    them with single spaces gives the string back. *)
Theorem legacy_arguments_rejoin (jObject : QJsonObject) :
  contains jObject "arguments" = false ->
  String.concat " "
    (VersionIndex.gameArguments (VersionIndex.VersionIndex jObject))
  = toString (value jObject "minecraftArguments")
  /\ Forall (fun token => spaceFree token = true)
            (VersionIndex.gameArguments (VersionIndex.VersionIndex jObject))
  /\ VersionIndex.gameArguments (VersionIndex.VersionIndex jObject) <> [].
Proof.
  intros Hlegacy. unfold VersionIndex.VersionIndex.
  cbn [VersionIndex.gameArguments]. rewrite Hlegacy.
  split; [apply concat_split|]. split; [apply split_spaceFree|].
  apply split_nonempty.
Qed.

Lemma legacy_arguments_rejoin_witness :
  String.concat " "
    (VersionIndex.gameArguments
       (VersionIndex.VersionIndex
          [("minecraftArguments", JString "--username  Steve ")]))
  = "--username  Steve ".
Proof.
  refine (proj1 (legacy_arguments_rejoin
                   [("minecraftArguments", JString "--username  Steve ")] _)).
  reflexivity.
Defined.

End descriptor_facts.

(** ** A successful discovery reflects the remote manifests *)

Section prefix_flow_reflects.
Context `{!Collaborators}.
Variable env : Env.

Lemma drain_reflects (queue : list QString) (m : VersionsManager) (w : World)
  (k : QString) :
  forallb (fun prefixId => answered env (versionsLocation (storeUrl m) prefixId))
          queue = true ->
  k ∈ queue
  \/ (latestOf m k
      = PrefixVersionsIndex.latest
          (PrefixVersionsIndex
             (fromJson (replyData env (versionsLocation (storeUrl m) k))))
      /\ forall v,
           v ∈ PrefixVersionsIndex.versions
                 (PrefixVersionsIndex
                    (fromJson (replyData env (versionsLocation (storeUrl m) k)))) ->
           v ∈ versionsOf m k) ->
  latestOf (fetchNextPrefixOrFinish env queue m w).1 k
  = PrefixVersionsIndex.latest
      (PrefixVersionsIndex
         (fromJson (replyData env (versionsLocation (storeUrl m) k))))
  /\ forall v,
       v ∈ PrefixVersionsIndex.versions
             (PrefixVersionsIndex
                (fromJson (replyData env (versionsLocation (storeUrl m) k)))) ->
       v ∈ versionsOf (fetchNextPrefixOrFinish env queue m w).1 k.
Proof.
  revert m w. induction queue as [|prefixId rest IH]; intros m w Hall Hk.
  - destruct Hk as [Hk|Hk]; [by apply elem_of_nil in Hk | done].
  - cbn [forallb] in Hall. apply andb_prop in Hall as [Hhead Hrest].
    cbn [fetchNextPrefixOrFinish]. unfold makeGetRequest.
    cbn [storeUrl set_prefixFetchQueue].
    fold (versionsLocation (storeUrl m) prefixId).
    assert (Hdata : get env (versionsLocation (storeUrl m) prefixId)
                    = ReplyData
                        (replyData env (versionsLocation (storeUrl m) prefixId))).
    { unfold answered in Hhead. unfold replyData.
      by destruct (get env (versionsLocation (storeUrl m) prefixId)). }
    rewrite Hdata.
    apply (IH (onPrefixVersionsReply prefixId _
                 (set_prefixFetchQueue (fun _ => rest) m))); [done|].
    destruct (decide (k = prefixId)) as [->|Hne].
    + right. unfold latestOf, versionsOf.
      rewrite onPrefixVersionsReply_lookup. cbn [from_option id].
      split; [done|]. intros v Hv. apply mergeVersions_elem_of. by right.
    + destruct Hk as [[->|Hk]%elem_of_cons|Hk]; [done | by left |].
      right. unfold latestOf, versionsOf, onPrefixVersionsReply.
      cbn [prefixes set_prefixes set_prefixFetchQueue storeUrl].
      by rewrite lookup_insert_ne.
Qed.

(** X20.  After a flow in which the prefixes index was fetched, the index
    file opened and every versions manifest was fetched, each prefix of
    the remote index has the latest-version pointer of its manifest and
    every version identifier its manifest lists. *)
Theorem prefix_flow_reflects_manifests (m : VersionsManager) (w : World)
  (data : QByteArray) (k : QString) :
  fetchingPrefixes m = false ->
  get env (storeUrl m +:+ "/prefixes.json") = ReplyData data ->
  canOpenWrite env (indexPath m) = true ->
  forallb (fun prefixId => answered env (versionsLocation (storeUrl m) prefixId))
          (prefixFetchQueue m ++ (map_to_list (PrefixesIndex (fromJson data))).*1)
  = true ->
  is_Some (PrefixesIndex (fromJson data) !! k) ->
  latestOf (fetchPrefixes env m w).1 k
  = PrefixVersionsIndex.latest
      (PrefixVersionsIndex
         (fromJson (replyData env (versionsLocation (storeUrl m) k))))
  /\ forall v,
       v ∈ PrefixVersionsIndex.versions
             (PrefixVersionsIndex
                (fromJson (replyData env (versionsLocation (storeUrl m) k)))) ->
       v ∈ versionsOf (fetchPrefixes env m w).1 k.
Proof.
  intros Hidle Hreply Hopen Hall Hk.
  unfold fetchPrefixes. rewrite Hidle. unfold makeGetRequest.
  cbn [storeUrl set_fetchingPrefixes]. rewrite Hreply.
  destruct (mergeRemoteIndex_settings (PrefixesIndex (fromJson data))
              (set_fetchingPrefixes true m)) as (Hurl & Hpath & _).
  pose proof (mergeRemoteIndex_queue (PrefixesIndex (fromJson data))
                (set_fetchingPrefixes true m)) as Hqueue.
  cbn [storeUrl indexPath prefixFetchQueue set_fetchingPrefixes]
    in Hurl, Hpath, Hqueue.
  unfold saveIndex, openWriteOnly. rewrite Hpath, Hopen, Hqueue.
  rewrite <- Hurl in Hall |- *.
  apply drain_reflects; [done|].
  left. apply elem_of_app. right. by apply elem_of_keys.
Qed.

End prefix_flow_reflects.

Section prefix_flow_reflects_examples.
Import Fixtures.

Lemma prefix_flow_reflects_manifests_witness :
  latestOf (fetchPrefixes env manager world).1 "release" = "1.2".
Proof.
  refine (proj1 (prefix_flow_reflects_manifests env manager world
                   (bytes "prefixes-remote") "release" _ _ _ _ _)).
  - reflexivity.
  - reflexivity.
  - reflexivity.
  - by vm_compute.
  - apply (bool_decide_unpack _). by vm_compute.
Defined.

End prefix_flow_reflects_examples.
